(** * Variscite i.MX9 identity EEPROM: a shallow embedding of
      board/variscite/common/imx9_eeprom.c

    The C functions are rendered as Rocq functions over explicit state:
    - machine integers are [Z] with their wrap-around written out
      ([u8], [u16], [u32], [u64]);
    - memory the code treats as raw bytes (caller buffers, the carrier
      record image) is [list byte];
    - a table given to the code as pointer plus count is a [list], and
      an access outside such an object yields [None] (undefined in C);
    - the I2C bus is an environment whose answers may depend on the
      whole history of bus events, and every transaction is logged. *)

From Stdlib Require Import ZArith Lia Bool.
From Stdlib Require Import Strings.Byte Strings.String.
From stdpp Require Import base option list.

Local Open Scope Z_scope.

(** ** Machine integers *)

Definition u8  (z : Z) : Z := z mod 2 ^ 8.
Definition u16 (z : Z) : Z := z mod 2 ^ 16.
Definition u32 (z : Z) : Z := z mod 2 ^ 32.
Definition u64 (z : Z) : Z := z mod 2 ^ 64.

Definition byte_val (b : byte) : Z := Z.of_N (Byte.to_N b).

(** Loads of multi-byte fields.  The i.MX9 cores run U-Boot little-endian,
    so a C load of a [u16] or [u32] field is the little-endian reading of
    its bytes; the big-endian reading is the "network byte order" one. *)
Definition le_load (bs : list byte) : Z :=
  foldr (fun b acc => byte_val b + 256 * acc) 0 bs.

Definition be_load (bs : list byte) : Z :=
  foldl (fun acc b => 256 * acc + byte_val b) 0 bs.

(** [htons] on a little-endian host: swap the two bytes of a [u16]. *)
Definition htons (x : Z) : Z :=
  Z.lor (Z.shiftl (Z.land x 255) 8) (Z.land (Z.shiftr x 8) 255).

(** ** Library routines of lib/ the file calls *)

(** [memcpy(dst, src, n)]: the first [n] bytes of [dst] are replaced by the
    first [n] bytes of [src]; both objects must hold [n] bytes. *)
Definition memcpy (dst src : list byte) (n : nat) : option (list byte) :=
  if decide (n ≤ length dst ∧ n ≤ length src)%nat
  then Some (take n src ++ drop n dst)
  else None.

(** The bytes [strncpy] stores for a source array [src] and a count [n]:
    it copies up to and including the first NUL, or [n] bytes when no NUL
    comes first.  ISO C then fills the rest of the [n] bytes with NUL;
    U-Boot's lib/string.c documents that it does not.  [pad] selects
    between the two; without padding the remaining bytes of the
    destination stay as they are.  Running off the end of the source
    array before either stop is an out-of-object read. *)
Fixpoint strncpy_bytes (pad : bool) (src old : list byte) (n : nat)
    {struct n} : option (list byte) :=
  match n with
  | O => Some []
  | S n' =>
      match src with
      | [] => None
      | c :: src' =>
          if Byte.eqb c x00
          then Some (x00 :: (if pad then replicate n' x00 else take n' (tail old)))
          else w ← strncpy_bytes pad src' (tail old) n'; Some (c :: w)
      end
  end.

Definition strncpy (pad : bool) (dst src : list byte) (n : nat)
  : option (list byte) :=
  if decide (n ≤ length dst)%nat
  then w ← strncpy_bytes pad src dst n; Some (w ++ drop n dst)
  else None.

(** The text a byte array holds as a C string: its bytes before the first
    NUL. *)
Fixpoint c_string (bs : list byte) : list byte :=
  match bs with
  | [] => []
  | c :: bs' => if Byte.eqb c x00 then [] else c :: c_string bs'
  end.

(** Modelled from the spec: [crc32] of lib/crc32.c is not among the
    sources; the spec calls it CRC32, which is the reflected CRC-32 of
    zlib (polynomial 0xEDB88320, register inverted on entry and exit).
    The validation code below takes the routine as a parameter; this
    definition instantiates it on concrete records. *)
Definition crc32_bit (c : Z) : Z :=
  if Z.testbit c 0 then Z.lxor (Z.shiftr c 1) 0xEDB88320 else Z.shiftr c 1.

Definition crc32_byte (c : Z) (b : byte) : Z :=
  Nat.iter 8 crc32_bit (Z.lxor c (byte_val b)).

Definition crc32_zlib (crc : Z) (buf : list byte) : Z :=
  Z.lxor (foldl crc32_byte (Z.lxor crc 0xFFFFFFFF) buf) 0xFFFFFFFF.

(** ** The primary (module) record *)

(** [struct var_eeprom]: the members the code reads.  [off] has
    [DRAM_TABLE_NUM + 1] entries and [mac] six bytes.  [version],
    [dramsize] and the entries of [off] are unsigned and narrower than
    [int]; [fsp_drate] is unsigned and no wider than [unsigned int], so
    that a store into an [unsigned int] keeps its value. *)
Record var_eeprom := {
  mac : list byte;
  version : Z;
  dramsize : Z;
  off : list Z;
  fsp_drate : Z
}.

(** Modelled from the spec: [DRAM_TABLE_NUM] is defined in imx9_eeprom.h,
    which is not among the sources; the spec has five adjustment tables,
    sizes computed for [i] in 0..4, and [DRAM_TABLE_NUM + 1] offsets. *)
Definition DRAM_TABLE_NUM : nat := 5.

(** [ep->off[i]] *)
Definition off_at (ep : var_eeprom) (i : nat) : Z := nth i (off ep) 0.

Section PrimaryAccessors.

(** [var_eeprom_is_valid] lives in imx9_eeprom.h; the code only consumes
    its verdict. *)
Variable var_eeprom_is_valid : var_eeprom -> bool.

(** The macro of the board configuration, as a [phys_size_t] value. *)
Variable DEFAULT_SDRAM_SIZE : Z.

(** [int var_eeprom_get_mac(struct var_eeprom *ep, u8 *mac)]: the return
    value and the caller's buffer afterwards.  The cache flush that opens
    the function changes none of the values modelled. *)
Definition var_eeprom_get_mac (ep : var_eeprom) (buf : list byte)
  : option (Z * list byte) :=
  if negb (var_eeprom_is_valid ep) then Some (-1, buf)
  else buf' ← memcpy buf (mac ep) (length (mac ep)); Some (0, buf').

(** [int var_eeprom_get_dram_size(struct var_eeprom *ep, phys_size_t *size)]:
    the return value and [*size].  The product and the shift are done in
    [unsigned long], 64 bits wide on this target. *)
Definition var_eeprom_get_dram_size (ep : var_eeprom) : Z * Z :=
  if negb (var_eeprom_is_valid ep) then (0, DEFAULT_SDRAM_SIZE)
  else (0, u64 (Z.shiftl (u64 (dramsize ep * 128)) 20)).

End PrimaryAccessors.

(** ** The DDR timing tables (asm/arch-imx9/ddr.h) *)

(** [struct dram_cfg_param { unsigned int reg; unsigned int val; }] *)
Record dram_cfg_param := { reg : Z; val : Z }.

Definition sizeof_dram_cfg_param : Z := 8.

(** [struct dram_fsp_msg]: [fsp_cfg] with its count [fsp_cfg_num] is a
    list. *)
Record dram_fsp_msg := {
  drate : Z;
  fsp_cfg : list dram_cfg_param
}.

(** [struct dram_timing_info]: the members the code touches.  Each table
    pointer with its [_num] count is a list; the five tables are five
    separate arrays.  The code indexes [fsp_msg[0]] and [fsp_msg[1]]
    without looking at [fsp_msg_num]; these two entries are [fsp_msg_0]
    and [fsp_msg_1]. *)
Record dram_timing_info := {
  ddrc_cfg : list dram_cfg_param;
  ddrphy_cfg : list dram_cfg_param;
  ddrphy_pie : list dram_cfg_param;
  fsp_msg_0 : dram_fsp_msg;
  fsp_msg_1 : dram_fsp_msg;
  fsp_table : list Z
}.

Definition set_ddrc_cfg (t : list dram_cfg_param) (d : dram_timing_info) :=
  {| ddrc_cfg := t; ddrphy_cfg := ddrphy_cfg d; ddrphy_pie := ddrphy_pie d;
     fsp_msg_0 := fsp_msg_0 d; fsp_msg_1 := fsp_msg_1 d;
     fsp_table := fsp_table d |}.

Definition set_ddrphy_cfg (t : list dram_cfg_param) (d : dram_timing_info) :=
  {| ddrc_cfg := ddrc_cfg d; ddrphy_cfg := t; ddrphy_pie := ddrphy_pie d;
     fsp_msg_0 := fsp_msg_0 d; fsp_msg_1 := fsp_msg_1 d;
     fsp_table := fsp_table d |}.

Definition set_ddrphy_pie (t : list dram_cfg_param) (d : dram_timing_info) :=
  {| ddrc_cfg := ddrc_cfg d; ddrphy_cfg := ddrphy_cfg d; ddrphy_pie := t;
     fsp_msg_0 := fsp_msg_0 d; fsp_msg_1 := fsp_msg_1 d;
     fsp_table := fsp_table d |}.

Definition set_fsp_cfg_0 (t : list dram_cfg_param) (d : dram_timing_info) :=
  {| ddrc_cfg := ddrc_cfg d; ddrphy_cfg := ddrphy_cfg d;
     ddrphy_pie := ddrphy_pie d;
     fsp_msg_0 := {| drate := drate (fsp_msg_0 d); fsp_cfg := t |};
     fsp_msg_1 := fsp_msg_1 d; fsp_table := fsp_table d |}.

Definition set_fsp_cfg_1 (t : list dram_cfg_param) (d : dram_timing_info) :=
  {| ddrc_cfg := ddrc_cfg d; ddrphy_cfg := ddrphy_cfg d;
     ddrphy_pie := ddrphy_pie d; fsp_msg_0 := fsp_msg_0 d;
     fsp_msg_1 := {| drate := drate (fsp_msg_1 d); fsp_cfg := t |};
     fsp_table := fsp_table d |}.

(** The three stores that end [var_eeprom_adjust_dram]. *)
Definition set_fsp_drate (r : Z) (d : dram_timing_info) :=
  {| ddrc_cfg := ddrc_cfg d; ddrphy_cfg := ddrphy_cfg d;
     ddrphy_pie := ddrphy_pie d;
     fsp_msg_0 := {| drate := r; fsp_cfg := fsp_cfg (fsp_msg_0 d) |};
     fsp_msg_1 := {| drate := r; fsp_cfg := fsp_cfg (fsp_msg_1 d) |};
     fsp_table := <[0%nat := r]> (fsp_table d) |}.

(** [struct mx9_ddr_adjust]: the pointer [cfg_param] designates one of the
    tables of the timing structure, so it is the pair of a read and a
    write of that table. *)
Record mx9_ddr_adjust := {
  name : string;
  cfg_param : dram_timing_info -> list dram_cfg_param;
  cfg_param_store : list dram_cfg_param -> dram_timing_info -> dram_timing_info;
  cfg_num : Z
}.

Definition table_num (t : list dram_cfg_param) : Z := u32 (Z.of_nat (length t)).

(** The initialiser of [mx9_adjust_table], without its NULL sentinel: the
    counts are taken from [d] on entry. *)
Definition mx9_adjust_table (d : dram_timing_info) : list mx9_ddr_adjust :=
  [ {| name := "DDRC"; cfg_param := ddrc_cfg;
       cfg_param_store := set_ddrc_cfg;
       cfg_num := table_num (ddrc_cfg d) |};
    {| name := "DDR PHY"; cfg_param := ddrphy_cfg;
       cfg_param_store := set_ddrphy_cfg;
       cfg_num := table_num (ddrphy_cfg d) |};
    {| name := "PIE"; cfg_param := ddrphy_pie;
       cfg_param_store := set_ddrphy_pie;
       cfg_num := table_num (ddrphy_pie d) |};
    {| name := "FSP0"; cfg_param := fun d => fsp_cfg (fsp_msg_0 d);
       cfg_param_store := set_fsp_cfg_0;
       cfg_num := table_num (fsp_cfg (fsp_msg_0 d)) |};
    {| name := "FSP0 2D"; cfg_param := fun d => fsp_cfg (fsp_msg_1 d);
       cfg_param_store := set_fsp_cfg_1;
       cfg_num := table_num (fsp_cfg (fsp_msg_1 d)) |} ].

(** ** The I2C bus *)

(** What the code does on the bus: a call of [var_eeprom_get_dev] (bus
    lookup and chip probe) and a [dm_i2c_read] of [len] bytes at
    [offset].  A log has the latest event first. *)
Inductive bus_event :=
| EvGetDev
| EvRead (offset len : Z).

(** The bus as the code sees it.  [get_dev_ok log] tells whether
    [var_eeprom_get_dev] returns 0 after the history [log];
    [read_row log offset] is the content of the row buffer once
    [dm_i2c_read] at [offset] has returned (the code ignores the return
    value and uses the buffer whatever happened). *)
Record i2c_env := {
  get_dev_ok : list bus_event -> bool;
  read_row : list bus_event -> Z -> dram_cfg_param
}.

Definition var_eeprom_get_dev (env : i2c_env) (log : list bus_event)
  : bool * list bus_event :=
  (get_dev_ok env log, EvGetDev :: log).

(** ** The adjustment engine *)

(** The inner loop of [adjust_dram_table],
    [for (; j < table_size; j++) if (table[j].reg == row.reg) {...; break;}],
    with [n = table_size - j] iterations left.  It returns the table and
    the cursor [j] as the loop leaves them. *)
Fixpoint scan_table (n : nat) (row : dram_cfg_param)
    (table : list dram_cfg_param) (j : nat)
  : option (list dram_cfg_param * nat) :=
  match n with
  | O => Some (table, j)
  | S n' =>
      e ← table !! j;
      if reg e =? reg row
      then Some (<[j := {| reg := reg e; val := val row |}]> table, j)
      else scan_table n' row table (S j)
  end.

(** The outer loop of [adjust_dram_table] with [n] rows left to fetch:
    [off] is the [u8] read offset, [j] the cursor, which is declared
    outside the loop. *)
Fixpoint adjust_rows (env : i2c_env) (n : nat) (off : Z)
    (table : list dram_cfg_param) (table_size j : nat)
    (log : list bus_event)
  : option (list dram_cfg_param * nat * list bus_event) :=
  match n with
  | O => Some (table, j, log)
  | S n' =>
      let adj_table_row := read_row env log off in
      let log' := EvRead off sizeof_dram_cfg_param :: log in
      '(table', j') ← scan_table (table_size - j) adj_table_row table j;
      adjust_rows env n' (u8 (off + sizeof_dram_cfg_param))
                  table' table_size j' log'
  end.

(** [static void adjust_dram_table(u8 adj_table_offset, u8 adj_table_size,
    struct dram_cfg_param *table, u8 table_size)]; the arguments arrive
    already converted to [u8]. *)
Definition adjust_dram_table (env : i2c_env)
    (adj_table_offset adj_table_size : Z)
    (table : list dram_cfg_param) (table_size : Z) (log : list bus_event)
  : option (list dram_cfg_param * list bus_event) :=
  let '(ok, log1) := var_eeprom_get_dev env log in
  if negb ok then Some (table, log1)
  else
    '(table', _, log2) ←
      adjust_rows env (Z.to_nat adj_table_size) adj_table_offset
                  table (Z.to_nat table_size) 0 log1;
    Some (table', log2).

(** A local array of [u16], as a function of the index. *)
Definition store_at (a : nat -> Z) (i : nat) (v : Z) : nat -> Z :=
  fun k => if (k =? i)%nat then v else a k.

(** The size loop of [var_eeprom_adjust_dram],
    [for (i = 0; i < DRAM_TABLE_NUM && ep->off[i + 1] != 0; i++)], with
    [n = DRAM_TABLE_NUM - i].  The difference of two offsets is an [int],
    converted to the 64-bit [size_t] for the division and to [u16] by the
    store. *)
Fixpoint calc_sizes (n i : nat) (ep : var_eeprom) (adj_table_size : nat -> Z)
  : nat -> Z :=
  match n with
  | O => adj_table_size
  | S n' =>
      if off_at ep (i + 1) =? 0 then adj_table_size
      else calc_sizes n' (S i) ep
             (store_at adj_table_size i
                (u16 (u64 (off_at ep (i + 1) - off_at ep i)
                      / sizeof_dram_cfg_param)))
  end.

(** The loop over [mx9_adjust_table], from entry [i] on. *)
Fixpoint adjust_tables (env : i2c_env) (ep : var_eeprom)
    (adj_table_size : nat -> Z) (i : nat) (tables : list mx9_ddr_adjust)
    (d : dram_timing_info) (log : list bus_event)
  : option (dram_timing_info * list bus_event) :=
  match tables with
  | [] => Some (d, log)
  | t :: rest =>
      '(table', log') ←
        adjust_dram_table env (u8 (off_at ep i)) (u8 (adj_table_size i))
                          (cfg_param t d) (u8 (cfg_num t)) log;
      adjust_tables env ep adj_table_size (S i) rest
                    (cfg_param_store t table' d) log'
  end.

Section AdjustmentEngine.

Variable var_eeprom_is_valid : var_eeprom -> bool.

(** [void var_eeprom_adjust_dram(struct var_eeprom *ep,
    struct dram_timing_info *d)].  [stack] is the content of the local
    array [adj_table_size] on entry: the code does not initialise
    it. *)
Definition var_eeprom_adjust_dram (env : i2c_env) (stack : nat -> Z)
    (ep : var_eeprom) (d : dram_timing_info) (log : list bus_event)
  : option (dram_timing_info * list bus_event) :=
  let tables := mx9_adjust_table d in
  if negb (var_eeprom_is_valid ep) then Some (d, log)
  else if version ep <? 2 then Some (d, log)
  else
    let adj_table_size := calc_sizes DRAM_TABLE_NUM 0 ep stack in
    '(d', log') ← adjust_tables env ep adj_table_size 0 tables d log;
    Some (set_fsp_drate (fsp_drate ep) d', log').

End AdjustmentEngine.

(** ** The secondary (carrier board) record *)

(** Modelled from the spec: [struct var_carrier_eeprom] is declared in
    imx9_eeprom.h, which is not among the sources.  The record is the
    image the bus read leaves in memory, packed: the 2-byte [magic], the
    1-byte [struct_ver], the text [carrier_rev], and the 4-byte [crc],
    which covers all bytes before it. *)
Definition var_carrier_eeprom := list byte.

Section CarrierRecord.

(** The width of [carrier_rev], a constant of imx9_eeprom.h. *)
Variable CARRIER_REV_LEN : nat.

(** [offsetof(struct var_carrier_eeprom, crc)] *)
Definition crc_offset : nat := 3 + CARRIER_REV_LEN.

(** The member loads, little-endian for the multi-byte ones. *)
Definition magic (ep : var_carrier_eeprom) : Z := le_load (take 2 ep).
Definition struct_ver (ep : var_carrier_eeprom) : Z :=
  le_load (take 1 (drop 2 ep)).
Definition carrier_rev (ep : var_carrier_eeprom) : list byte :=
  take CARRIER_REV_LEN (drop 3 ep).
Definition crc_bytes (ep : var_carrier_eeprom) : list byte :=
  take 4 (drop crc_offset ep).
Definition crc (ep : var_carrier_eeprom) : Z := le_load (crc_bytes ep).

(** [sizeof(struct var_carrier_eeprom)] *)
Definition sizeof_var_carrier_eeprom : nat := crc_offset + 4.

(** [uint32_t crc32(uint32_t crc, const unsigned char *buf, uint len)] *)
Variable crc32 : Z -> list byte -> Z.

(** The constant of imx9_eeprom.h. *)
Variable VAR_CARRIER_EEPROM_MAGIC : Z.

(** Whether the [strncpy] in use pads with NUL. *)
Variable strncpy_pads : bool.

(** [int var_carrier_eeprom_is_valid(struct var_carrier_eeprom *ep)];
    the console messages are left out. *)
Definition var_carrier_eeprom_is_valid (ep : var_carrier_eeprom) : bool :=
  if negb (htons (magic ep) =? VAR_CARRIER_EEPROM_MAGIC) then false
  else if struct_ver ep <? 1 then false
  else if struct_ver ep =? 1 then true
  else
    let crc_computed := u32 (crc32 0 (take crc_offset ep)) in
    if negb (crc_computed =? crc ep) then false
    else true.

(** [void var_carrier_eeprom_get_revision(struct var_carrier_eeprom *ep,
    char *rev, size_t size)]: the caller's buffer afterwards. *)
Definition var_carrier_eeprom_get_revision (ep : var_carrier_eeprom)
    (rev : list byte) (size : nat) : option (list byte) :=
  if var_carrier_eeprom_is_valid ep
  then strncpy strncpy_pads rev (carrier_rev ep) size
  else strncpy strncpy_pads rev (list_byte_of_string "legacy" ++ [x00]) size.

End CarrierRecord.

(** ** What a merge step finds *)

(** Entry [k], holding [e], is the first entry of [table] at or after the
    cursor [j] and before [table_size] whose register address is [r]. *)
Definition first_match (table : list dram_cfg_param) (j table_size : nat)
    (r : Z) (k : nat) (e : dram_cfg_param) : Prop :=
  (j ≤ k < table_size)%nat ∧ table !! k = Some e ∧ reg e = r
  ∧ ∀ m e', (j ≤ m < k)%nat → table !! m = Some e' → reg e' ≠ r.

(** No entry at or after the cursor [j] and before [table_size] has the
    register address [r]. *)
Definition no_match (table : list dram_cfg_param) (j table_size : nat)
    (r : Z) : Prop :=
  ∀ m e', (j ≤ m < table_size)%nat → table !! m = Some e' → reg e' ≠ r.

(** ** Sample data *)

Definition sample_mac : list byte := [x00; x11; x22; x33; x44; x55].

Definition sample_eeprom : var_eeprom :=
  {| mac := sample_mac; version := 3; dramsize := 4;
     off := [64; 72; 88; 88; 88; 88]; fsp_drate := 3733 |}.

Definition sample_table : list dram_cfg_param :=
  [ {| reg := 0x100; val := 1 |}; {| reg := 0x104; val := 2 |};
    {| reg := 0x108; val := 3 |}; {| reg := 0x10c; val := 4 |} ].

Definition sample_timing : dram_timing_info :=
  {| ddrc_cfg := sample_table;
     ddrphy_cfg := [ {| reg := 0x200; val := 5 |}; {| reg := 0x204; val := 6 |} ];
     ddrphy_pie := [ {| reg := 0x300; val := 7 |} ];
     fsp_msg_0 := {| drate := 3200; fsp_cfg := [ {| reg := 0x400; val := 8 |} ] |};
     fsp_msg_1 := {| drate := 3200; fsp_cfg := [ {| reg := 0x500; val := 9 |} ] |};
     fsp_table := [3200; 0; 0; 0] |}.

(** A bus whose chip answers and whose EEPROM holds, at every offset, the
    row [(0x108, 0xAA)]. *)
Definition sample_env : i2c_env :=
  {| get_dev_ok := fun _ => true;
     read_row := fun _ _ => {| reg := 0x108; val := 0xAA |} |}.

(** A version-2 record whose offset sequence ends after the first table:
    [off[2]] is zero, so the tables 1 to 4 are absent. *)
Definition short_eeprom : var_eeprom :=
  {| mac := sample_mac; version := 2; dramsize := 4;
     off := [64; 72; 0; 0; 0; 0]; fsp_drate := 3733 |}.

(** An EEPROM holding the row [(0x108, 0xAA)] at offset 64 and bytes that
    read as the row [(0x200, 0xBB)] elsewhere. *)
Definition short_env : i2c_env :=
  {| get_dev_ok := fun _ => true;
     read_row := fun _ offset =>
       if offset =? 64 then {| reg := 0x108; val := 0xAA |}
       else {| reg := 0x200; val := 0xBB |} |}.

(** A stack whose slots all hold 1 when [var_eeprom_adjust_dram] is
    entered. *)
Definition stale_stack : nat -> Z := fun _ => 1.

(** Carrier record images.  [le_store] and [be_store] lay a number out in
    [n] bytes, least and most significant byte first. *)
Definition byte_of_Z (z : Z) : byte :=
  match Byte.of_N (Z.to_N (z mod 256)) with
  | Some b => b
  | None => x00
  end.

Fixpoint le_store (n : nat) (z : Z) : list byte :=
  match n with
  | O => []
  | S n' => byte_of_Z z :: le_store n' (z / 256)
  end.

Definition be_store (n : nat) (z : Z) : list byte := reverse (le_store n z).

(** Magic "VC", a version byte and a revision text in 16 bytes. *)
Definition carrier_head (ver : byte) (text : string) : list byte :=
  [x56; x43; ver] ++ take 16 (list_byte_of_string text ++ replicate 16 x00).

Definition carrier_v1 : var_carrier_eeprom :=
  carrier_head x01 "1.4a" ++ [xde; xad; xbe; xef].

Definition carrier_ver0 : var_carrier_eeprom :=
  carrier_head x00 "1.4a" ++ [x00; x00; x00; x00].

Definition carrier_bad_magic : var_carrier_eeprom :=
  [x43; x56; x01] ++ replicate 20 x00.

(** Version 2, checksum laid out least significant byte first. *)
Definition carrier_v2_host : var_carrier_eeprom :=
  carrier_head x02 "2.0" ++ le_store 4 (crc32_zlib 0 (carrier_head x02 "2.0")).

(** Version 2, checksum laid out in network byte order. *)
Definition carrier_v2_net : var_carrier_eeprom :=
  carrier_head x02 "2.0" ++ be_store 4 (crc32_zlib 0 (carrier_head x02 "2.0")).

(** ** The merge seen without the bus *)

(** The rows the outer loop of [adjust_dram_table] fetches when it starts
    at offset [off] with the history [log], first row first. *)
Fixpoint fetched_rows (env : i2c_env) (n : nat) (off : Z)
    (log : list bus_event) : list dram_cfg_param :=
  match n with
  | O => []
  | S n' =>
      read_row env log off
      :: fetched_rows env n' (u8 (off + sizeof_dram_cfg_param))
           (EvRead off sizeof_dram_cfg_param :: log)
  end.

(** The offsets of these reads, first read first. *)
Fixpoint row_offsets (n : nat) (off : Z) : list Z :=
  match n with
  | O => []
  | S n' => off :: row_offsets n' (u8 (off + sizeof_dram_cfg_param))
  end.

(** The outer loop of [adjust_dram_table] over rows that are already
    fetched. *)
Fixpoint merge_rows (rows : list dram_cfg_param)
    (table : list dram_cfg_param) (table_size j : nat)
  : option (list dram_cfg_param * nat) :=
  match rows with
  | [] => Some (table, j)
  | row :: rest =>
      '(table', j') ← scan_table (table_size - j) row table j;
      merge_rows rest table' table_size j'
  end.

(** The first of [rows] with register address [r]. *)
Fixpoint row_for (r : Z) (rows : list dram_cfg_param)
  : option dram_cfg_param :=
  match rows with
  | [] => None
  | row :: rest => if reg row =? r then Some row else row_for r rest
  end.

(** An entry with the value of the row for its register address, if
    there is one: what an adjustment means when order plays no part. *)
Definition override (rows : list dram_cfg_param) (e : dram_cfg_param)
  : dram_cfg_param :=
  match row_for (reg e) rows with
  | Some row => {| reg := reg e; val := val row |}
  | None => e
  end.

(** ** The record readers *)

(** The driver-model calls the readers make, each with its return code
    (0 for success).  A reader makes each call at most once, so the
    answers are functions of the arguments: [uclass_get_device_by_name]
    of the bus name, [dm_i2c_probe] of bus and chip address,
    [dm_i2c_read] of bus, chip address, offset, length and the buffer as
    it is before the call, which it answers by the buffer as it is
    after. *)
Record dm_i2c := {
  uclass_get_device_by_name : string -> Z;
  dm_i2c_probe : string -> Z -> Z;
  dm_i2c_read : string -> Z -> Z -> nat -> list byte -> Z * list byte
}.

(** The calls made, latest first. *)
Inductive dm_event :=
| DmLookup (bus_name : string)
| DmProbe (bus_name : string) (addr : Z)
| DmRead (bus_name : string) (addr offset : Z) (len : nat).

(** Whether a call is a read. *)
Definition is_read (ev : dm_event) : Prop :=
  match ev with DmRead _ _ _ _ => True | _ => False end.

Section Readers.

(** Constants of imx9_eeprom.h. *)
Variable VAR_SOM_EEPROM_I2C_NAME : string.
Variable VAR_SOM_EEPROM_I2C_ADDR : Z.

(** [static int var_eeprom_get_dev(struct udevice **devp)] with its
    return code. *)
Definition var_eeprom_get_dev_ret (dm : dm_i2c) : Z * list dm_event :=
  let ret := uclass_get_device_by_name dm VAR_SOM_EEPROM_I2C_NAME in
  if negb (ret =? 0) then (ret, [DmLookup VAR_SOM_EEPROM_I2C_NAME])
  else
    let ret := dm_i2c_probe dm VAR_SOM_EEPROM_I2C_NAME VAR_SOM_EEPROM_I2C_ADDR in
    let events :=
      [DmProbe VAR_SOM_EEPROM_I2C_NAME VAR_SOM_EEPROM_I2C_ADDR;
       DmLookup VAR_SOM_EEPROM_I2C_NAME] in
    if negb (ret =? 0) then (ret, events) else (0, events).

(** [int var_eeprom_read_header(struct var_eeprom *e)]: the return code,
    the memory of [*e] afterwards and the calls made.  [e] is the memory
    of the structure, [sizeof *e] bytes. *)
Definition var_eeprom_read_header (dm : dm_i2c) (e : list byte)
  : Z * list byte * list dm_event :=
  let '(ret, events) := var_eeprom_get_dev_ret dm in
  if negb (ret =? 0) then (ret, e, events)
  else
    let '(ret, e') :=
      dm_i2c_read dm VAR_SOM_EEPROM_I2C_NAME VAR_SOM_EEPROM_I2C_ADDR 0
                  (length e) e in
    let events :=
      DmRead VAR_SOM_EEPROM_I2C_NAME VAR_SOM_EEPROM_I2C_ADDR 0 (length e)
      :: events in
    if negb (ret =? 0) then (ret, e', events) else (0, e', events).

(** [int var_carrier_eeprom_read(const char *bus_name, int addr,
    struct var_carrier_eeprom *ep)] *)
Definition var_carrier_eeprom_read (dm : dm_i2c) (bus_name : string)
    (addr : Z) (ep : var_carrier_eeprom)
  : Z * var_carrier_eeprom * list dm_event :=
  let ret := uclass_get_device_by_name dm bus_name in
  if negb (ret =? 0) then (ret, ep, [DmLookup bus_name])
  else
    let ret := dm_i2c_probe dm bus_name addr in
    if negb (ret =? 0)
    then (ret, ep, [DmProbe bus_name addr; DmLookup bus_name])
    else
      let '(ret, ep') := dm_i2c_read dm bus_name addr 0 (length ep) ep in
      let events :=
        [DmRead bus_name addr 0 (length ep); DmProbe bus_name addr;
         DmLookup bus_name] in
      if negb (ret =? 0) then (ret, ep', events) else (0, ep', events).

End Readers.

(** ** Product information on the console *)

(** The members of [struct var_eeprom] that only
    [var_eeprom_print_prod_info] reads, beside the ones of the
    accessors. *)
Record var_eeprom_info := {
  info_ep : var_eeprom;
  partnum : list byte;
  partnum2 : list byte;
  assembly : list byte;
  date : list byte;
  somrev : Z
}.

(** [memcpy(dst + at, src, n)] *)
Definition memcpy_at (dst : list byte) (at_ : nat) (src : list byte) (n : nat)
  : option (list byte) :=
  if decide (at_ ≤ length dst)%nat
  then tail_ ← memcpy (drop at_ dst) src n; Some (take at_ dst ++ tail_)
  else None.

(** The conversion [%.*s]: at most [precision] bytes, up to the first
    NUL. *)
Definition printf_s (precision : nat) (s : list byte) : list byte :=
  c_string (take precision s).

(** The conversions [%x] and [%02x] of an [unsigned int]. *)
Definition hex_digit (d : Z) : byte :=
  nth (Z.to_nat d) (list_byte_of_string "0123456789abcdef") x00.

Fixpoint hex_digits (fuel : nat) (z : Z) : list byte :=
  match fuel with
  | O => []
  | S fuel' =>
      if z <? 16 then [hex_digit z]
      else hex_digits fuel' (z / 16) ++ [hex_digit (z mod 16)]
  end.

Definition printf_x (z : Z) : list byte := hex_digits 8 (u32 z).

Definition printf_02x (z : Z) : list byte :=
  replicate (2 - length (printf_x z)) "0"%byte ++ printf_x z.

Section ProdInfo.

Variable var_eeprom_is_valid : var_eeprom -> bool.

(** Whether [CONFIG_TARGET_MX93_VAR_SOM] is set. *)
Variable CONFIG_TARGET_MX93_VAR_SOM : bool.

(** [void var_eeprom_print_prod_info(struct var_eeprom *ep)] in a build
    without [DEBUG], where the [debug] lines print nothing: the output of
    each [printf], in order.  [None] is a copy that leaves the local
    8-byte buffer [partnum]. *)
Definition var_eeprom_print_prod_info (ep : var_eeprom_info)
  : option (list (list byte)) :=
  let partnum_buf := replicate 8 x00 in
  if negb (var_eeprom_is_valid (info_ep ep)) then Some []
  else
    partnum_buf ← memcpy partnum_buf (partnum ep) (length (partnum ep));
    partnum_buf ←
      (if 3 <=? version (info_ep ep)
       then memcpy_at partnum_buf (length (partnum ep)) (partnum2 ep)
              (length (partnum2 ep))
       else Some partnum_buf);
    let mac_at i := byte_val (nth i (mac (info_ep ep)) x00) in
    Some
      ((if CONFIG_TARGET_MX93_VAR_SOM
        then [ [x0a] ++ list_byte_of_string "Part number: VSM-MX93-"
               ++ printf_s 8 partnum_buf ++ [x0a] ]
        else [])
       ++ [ list_byte_of_string "Assembly: AS"
            ++ printf_s (length (assembly ep)) (assembly ep) ++ [x0a];
            list_byte_of_string "Production date: "
            ++ printf_s 4 (date ep) ++ list_byte_of_string " "
            ++ printf_s 3 (drop 4 (date ep)) ++ list_byte_of_string " "
            ++ printf_s 2 (drop 7 (date ep)) ++ [x0a];
            list_byte_of_string "Serial Number: "
            ++ printf_02x (mac_at 0%nat) ++ list_byte_of_string ":"
            ++ printf_02x (mac_at 1%nat) ++ list_byte_of_string ":"
            ++ printf_02x (mac_at 2%nat) ++ list_byte_of_string ":"
            ++ printf_02x (mac_at 3%nat) ++ list_byte_of_string ":"
            ++ printf_02x (mac_at 4%nat) ++ list_byte_of_string ":"
            ++ printf_02x (mac_at 5%nat) ++ [x0a];
            list_byte_of_string "SOM revision: 0x"
            ++ printf_x (somrev ep) ++ [x0a] ]).

End ProdInfo.

(** ** More sample data *)

(** An EEPROM holding the rows [(0x104, 0x11)] at offset 64 and
    [(0x10c, 0x22)] elsewhere. *)
Definition ordered_env : i2c_env :=
  {| get_dev_ok := fun _ => true;
     read_row := fun _ offset =>
       if offset =? 64 then {| reg := 0x104; val := 0x11 |}
       else {| reg := 0x10c; val := 0x22 |} |}.

(** A bus on which the EEPROM is never found. *)
Definition dead_env : i2c_env :=
  {| get_dev_ok := fun _ => false;
     read_row := fun _ _ => {| reg := 0; val := 0 |} |}.

(** A record whose second offset lies below the first. *)
Definition descending_eeprom : var_eeprom :=
  {| mac := sample_mac; version := 2; dramsize := 4;
     off := [64; 56; 0; 0; 0; 0]; fsp_drate := 3733 |}.

(** Driver-model answers: a bus without the chip (the probe returns -121)
    and a bus whose chip returns [carrier_v1]. *)
Definition absent_dm : dm_i2c :=
  {| uclass_get_device_by_name := fun _ => 0;
     dm_i2c_probe := fun _ _ => -121;
     dm_i2c_read := fun _ _ _ _ buf => (-121, buf) |}.

Definition present_dm : dm_i2c :=
  {| uclass_get_device_by_name := fun _ => 0;
     dm_i2c_probe := fun _ _ => 0;
     dm_i2c_read := fun _ _ _ _ _ => (0, carrier_v1) |}.

Definition sample_info : var_eeprom_info :=
  {| info_ep := sample_eeprom;
     partnum := list_byte_of_string "93C";
     partnum2 := list_byte_of_string "12345";
     assembly := list_byte_of_string "0123456789";
     date := list_byte_of_string "2023Jan15";
     somrev := 0x12 |}.

(** ** The claims' words about the merge *)


(** [table'] differs from [table] only in values of matched entries: it
    has the same length, and each entry is the entry of [table] at the
    same index, or that entry with the value of a row the bus delivered
    with the same register address. *)
Definition matched_values_only (env : i2c_env)
    (table table' : list dram_cfg_param) : Prop :=
  length table' = length table
  ∧ ∀ k e e', table !! k = Some e → table' !! k = Some e' →
      e' = e
      ∨ ∃ log0 offset,
          reg (read_row env log0 offset) = reg e
          ∧ e' = {| reg := reg e; val := val (read_row env log0 offset) |}.


Definition carrier_v3_net : var_carrier_eeprom :=
  carrier_head x03 "1.4a" ++ be_store 4 (crc32_zlib 0 (carrier_head x03 "1.4a")).

(** * Properties *)

(** The check value of CRC-32. *)
Example crc32_check_value :
  crc32_zlib 0 (list_byte_of_string "123456789") = 0xCBF43926.
Proof. vm_compute. reflexivity. Qed.

(** ** Accessors of the primary record *)

Section PrimaryAccessorFacts.

Variable var_eeprom_is_valid : var_eeprom -> bool.
Variable DEFAULT_SDRAM_SIZE : Z.

Lemma memcpy_fits (dst src : list byte) (n : nat) :
  (n ≤ length dst)%nat → (n ≤ length src)%nat →
  memcpy dst src n = Some (take n src ++ drop n dst).
Proof. intros Hd Hs. unfold memcpy. rewrite decide_True; [done | lia]. Qed.

(** C9: [var_eeprom_get_mac] returns a non-zero status exactly when the
    record is not trusted; in that case the caller's buffer is as it
    was, and otherwise its first six bytes are the record's MAC and the
    bytes behind them are as they were. *)
Theorem get_mac_error_iff_untrusted (ep : var_eeprom) (buf : list byte) :
  length (mac ep) = 6%nat → (6 ≤ length buf)%nat →
  ∃ ret buf',
    var_eeprom_get_mac var_eeprom_is_valid ep buf = Some (ret, buf')
    ∧ (ret ≠ 0 ↔ var_eeprom_is_valid ep = false)
    ∧ (ret ≠ 0 → buf' = buf)
    ∧ (ret = 0 → take 6 buf' = mac ep ∧ drop 6 buf' = drop 6 buf
                 ∧ length buf' = length buf).
Proof.
  intros Hmac Hbuf. unfold var_eeprom_get_mac.
  destruct (var_eeprom_is_valid ep) eqn:Hv; simpl.
  - rewrite memcpy_fits by lia. simpl.
    eexists 0, _. split; [reflexivity|].
    rewrite Hmac, (take_ge (mac ep)) by lia.
    repeat split; try done.
    + rewrite take_app_length' by done. done.
    + rewrite drop_app_length' by done. done.
    + rewrite length_app, length_drop. lia.
  - eexists (-1), buf. repeat split; try done.
Qed.

(** C7: [var_eeprom_get_dram_size] always returns 0; the size it stores
    is the default for a record that is not trusted and
    [dramsize * 128 MiB] for a trusted one, 512 MiB when [dramsize] is
    4. *)
Theorem get_dram_size_total (ep : var_eeprom) :
  0 <= dramsize ep < 2 ^ 37 →
  fst (var_eeprom_get_dram_size var_eeprom_is_valid DEFAULT_SDRAM_SIZE ep) = 0
  ∧ (var_eeprom_is_valid ep = false →
     snd (var_eeprom_get_dram_size var_eeprom_is_valid DEFAULT_SDRAM_SIZE ep)
     = DEFAULT_SDRAM_SIZE)
  ∧ (var_eeprom_is_valid ep = true →
     snd (var_eeprom_get_dram_size var_eeprom_is_valid DEFAULT_SDRAM_SIZE ep)
     = dramsize ep * (128 * 2 ^ 20))
  ∧ (var_eeprom_is_valid ep = true → dramsize ep = 4 →
     snd (var_eeprom_get_dram_size var_eeprom_is_valid DEFAULT_SDRAM_SIZE ep)
     = 512 * 2 ^ 20).
Proof.
  intros Hrange. unfold var_eeprom_get_dram_size.
  assert (Hval : u64 (Z.shiftl (u64 (dramsize ep * 128)) 20)
                 = dramsize ep * (128 * 2 ^ 20)).
  { unfold u64. rewrite (Z.mod_small (dramsize ep * 128)) by lia.
    rewrite Z.shiftl_mul_pow2 by lia. rewrite Z.mod_small; lia. }
  destruct (var_eeprom_is_valid ep); simpl.
  - repeat split; try done. intros _ H4. rewrite Hval, H4. reflexivity.
  - repeat split; done.
Qed.

End PrimaryAccessorFacts.

Lemma get_mac_error_iff_untrusted_witness :
  ∃ ret buf',
    var_eeprom_get_mac (fun _ => true) sample_eeprom (replicate 8 xff)
    = Some (ret, buf')
    ∧ (ret ≠ 0 ↔ (fun _ : var_eeprom => true) sample_eeprom = false)
    ∧ (ret ≠ 0 → buf' = replicate 8 xff)
    ∧ (ret = 0 → take 6 buf' = mac sample_eeprom
                 ∧ drop 6 buf' = drop 6 (replicate 8 xff)
                 ∧ length buf' = length (replicate 8 xff)).
Proof.
  apply (get_mac_error_iff_untrusted (fun _ => true) sample_eeprom
           (replicate 8 xff)).
  - reflexivity.
  - simpl. lia.
Defined.

Lemma get_dram_size_total_witness :
  snd (var_eeprom_get_dram_size (fun _ => true) (2 ^ 31) sample_eeprom)
  = 512 * 2 ^ 20.
Proof.
  apply (get_dram_size_total (fun _ => true) (2 ^ 31) sample_eeprom).
  - simpl. lia.
  - reflexivity.
  - reflexivity.
Defined.

(** ** The merge of one adjustment table *)

Section MergeFacts.

Implicit Types (table : list dram_cfg_param) (row : dram_cfg_param).

Lemma take_le_eq {A} (l1 l2 : list A) (n m : nat) :
  (n ≤ m)%nat → take m l1 = take m l2 → take n l1 = take n l2.
Proof.
  intros Hle H. rewrite <- (Nat.min_l n m Hle), <- !take_take. by rewrite H.
Qed.

Lemma scan_table_ok n row table j :
  (j + n ≤ length table)%nat →
  ∃ table' j',
    scan_table n row table j = Some (table', j')
    ∧ reg <$> table' = reg <$> table ∧ take j table' = take j table
    ∧ (j ≤ j' ≤ j + n)%nat.
Proof.
  revert j. induction n as [|n IH]; intros j Hlen; simpl.
  - exists table, j. repeat split; try done; lia.
  - destruct (lookup_lt_is_Some_2 table j) as [e He]; [lia|].
    rewrite He. simpl. destruct (reg e =? reg row).
    + eexists _, j. split; [reflexivity|]. split; [|split; [|lia]].
      * rewrite list_fmap_insert. simpl.
        apply list_insert_id. by rewrite list_lookup_fmap, He.
      * by apply take_insert_ge.
    + destruct (IH (S j)) as (t' & j' & -> & Hreg & Htake & Hj); [lia|].
      exists t', j'. split; [done|]. split; [done|]. split; [|lia].
      apply (take_le_eq _ _ j (S j)); [lia | done].
Qed.

Lemma scan_table_first_match row table j table_size k e :
  first_match table j table_size (reg row) k e →
  scan_table (table_size - j) row table j
  = Some (<[k := {| reg := reg e; val := val row |}]> table, k).
Proof.
  intros (Hk & He & Hr & Hbefore).
  remember (k - j)%nat as dist eqn:Hdist.
  revert j Hk Hbefore Hdist.
  induction dist as [|dist IH]; intros j Hk Hbefore Hdist.
  - assert (j = k) as -> by lia.
    destruct (table_size - k)%nat as [|n] eqn:Hn; [lia|]. simpl.
    rewrite He. simpl. rewrite Hr, Z.eqb_refl. done.
  - destruct (table_size - j)%nat as [|n] eqn:Hn; [lia|]. simpl.
    destruct (lookup_lt_is_Some_2 table j) as [e' He'].
    { apply lookup_lt_Some in He. lia. }
    rewrite He'. simpl.
    destruct (Z.eqb_spec (reg e') (reg row)) as [Heq|_].
    { exfalso. apply (Hbefore j e'); [lia | done | done]. }
    replace n with (table_size - S j)%nat by lia.
    apply IH; [lia | | lia].
    intros m e'' Hm. apply Hbefore. lia.
Qed.

Lemma scan_table_no_match row table j table_size :
  (table_size ≤ length table)%nat → (j ≤ table_size)%nat →
  no_match table j table_size (reg row) →
  scan_table (table_size - j) row table j = Some (table, table_size).
Proof.
  intros Hlen.
  remember (table_size - j)%nat as dist eqn:Hdist.
  revert j Hdist. induction dist as [|dist IH]; intros j Hdist Hj Hno; simpl.
  - f_equal. f_equal. lia.
  - destruct (lookup_lt_is_Some_2 table j) as [e' He']; [lia|].
    rewrite He'. simpl.
    destruct (Z.eqb_spec (reg e') (reg row)) as [Heq|_].
    { exfalso. apply (Hno j e'); [lia | done | done]. }
    apply IH; [lia | lia |].
    intros m e'' Hm. apply Hno. lia.
Qed.

Lemma adjust_rows_ok env n off table table_size j log :
  (table_size ≤ length table)%nat → (j ≤ table_size)%nat →
  ∃ table' j' log',
    adjust_rows env n off table table_size j log = Some (table', j', log')
    ∧ reg <$> table' = reg <$> table ∧ take j table' = take j table
    ∧ (j ≤ j' ≤ table_size)%nat.
Proof.
  revert off table j log.
  induction n as [|n IH]; intros off table j log Hlen Hj; simpl.
  - exists table, j, log. repeat split; try done; lia.
  - destruct (scan_table_ok (table_size - j) (read_row env log off) table j)
      as (t1 & j1 & -> & Hreg1 & Htake1 & Hj1); [lia|]. simpl.
    assert (length t1 = length table) as Hlen1.
    { by rewrite <- (length_fmap reg t1), Hreg1, length_fmap. }
    destruct (IH (u8 (off + sizeof_dram_cfg_param)) t1 j1
                 (EvRead off sizeof_dram_cfg_param :: log))
      as (t2 & j2 & log2 & -> & Hreg2 & Htake2 & Hj2); [lia | lia|].
    exists t2, j2, log2. split; [done|]. split; [congruence|].
    split; [|lia].
    rewrite <- Htake1. apply (take_le_eq _ _ j j1); [lia | done].
Qed.

Lemma adjust_rows_exhausted env n off table table_size log :
  ∃ log',
    adjust_rows env n off table table_size table_size log
    = Some (table, table_size, log').
Proof.
  revert off log. induction n as [|n IH]; intros off log; simpl.
  - by exists log.
  - rewrite Nat.sub_diag. simpl. apply IH.
Qed.

Lemma u8_table_num_le table :
  (Z.to_nat (u8 (table_num table)) ≤ length table)%nat.
Proof.
  unfold u8, table_num, u32.
  pose proof (Z.mod_pos_bound (Z.of_nat (length table)) (2 ^ 32)) as H32.
  pose proof (Z.mod_le (Z.of_nat (length table)) (2 ^ 32)) as Hle32.
  pose proof (Z.mod_le (Z.of_nat (length table) mod 2 ^ 32) (2 ^ 8)) as Hle8.
  lia.
Qed.

Lemma adjust_dram_table_ok env adj_off adj_size table table_size log :
  (Z.to_nat table_size ≤ length table)%nat →
  ∃ table' log',
    adjust_dram_table env adj_off adj_size table table_size log
    = Some (table', log')
    ∧ reg <$> table' = reg <$> table.
Proof.
  intros Hlen. unfold adjust_dram_table, var_eeprom_get_dev.
  destruct (get_dev_ok env log); simpl.
  - destruct (adjust_rows_ok env (Z.to_nat adj_size) adj_off table
                (Z.to_nat table_size) 0 (EvGetDev :: log))
      as (t' & j' & log' & -> & Hreg & _); [done | lia|].
    simpl. by exists t', log'.
  - by exists table, (EvGetDev :: log).
Qed.

(** A table whose size argument is zero costs the device lookup and
    nothing else. *)
Lemma adjust_dram_table_size_0 env adj_off table table_size log :
  adjust_dram_table env adj_off 0 table table_size log
  = Some (table, EvGetDev :: log).
Proof.
  unfold adjust_dram_table, var_eeprom_get_dev.
  by destruct (get_dev_ok env log).
Qed.

(** The size loop stops at the first zero offset and stores nothing
    from there on: the slots of the absent tables keep what the stack
    held. *)
Lemma calc_sizes_keeps_stack n i ep a first k :
  (i ≤ first)%nat → off_at ep (first + 1) = 0 → (first ≤ k)%nat →
  calc_sizes n i ep a k = a k.
Proof.
  revert i a. induction n as [|n IH]; intros i a Hi Hz Hk; simpl; [done|].
  destruct (Z.eqb_spec (off_at ep (i + 1)) 0) as [_|Hnz]; [done|].
  assert (i ≠ first) by (intros ->; done).
  rewrite IH by lia. unfold store_at.
  destruct (Nat.eqb_spec k i); [lia | done].
Qed.

(** The loop over the five tables never leaves a table: it ends, and
    changes nothing but values inside the five tables. *)
Lemma adjust_tables_frame env ep sizes d log :
  ∃ d' log',
    adjust_tables env ep sizes 0 (mx9_adjust_table d) d log = Some (d', log')
    ∧ reg <$> ddrc_cfg d' = reg <$> ddrc_cfg d
    ∧ reg <$> ddrphy_cfg d' = reg <$> ddrphy_cfg d
    ∧ reg <$> ddrphy_pie d' = reg <$> ddrphy_pie d
    ∧ reg <$> fsp_cfg (fsp_msg_0 d') = reg <$> fsp_cfg (fsp_msg_0 d)
    ∧ reg <$> fsp_cfg (fsp_msg_1 d') = reg <$> fsp_cfg (fsp_msg_1 d)
    ∧ drate (fsp_msg_0 d') = drate (fsp_msg_0 d)
    ∧ drate (fsp_msg_1 d') = drate (fsp_msg_1 d)
    ∧ fsp_table d' = fsp_table d.
Proof.
  unfold mx9_adjust_table.
  cbn [adjust_tables cfg_param cfg_num cfg_param_store].
  destruct (adjust_dram_table_ok env (u8 (off_at ep 0)) (u8 (sizes 0%nat))
              (ddrc_cfg d) (u8 (table_num (ddrc_cfg d))) log)
    as (t0 & l0 & -> & R0); [apply u8_table_num_le|].
  cbn [mbind option_bind set_ddrc_cfg ddrphy_cfg].
  destruct (adjust_dram_table_ok env (u8 (off_at ep 1)) (u8 (sizes 1%nat))
              (ddrphy_cfg d) (u8 (table_num (ddrphy_cfg d))) l0)
    as (t1 & l1 & -> & R1); [apply u8_table_num_le|].
  cbn [mbind option_bind set_ddrc_cfg set_ddrphy_cfg ddrphy_pie].
  destruct (adjust_dram_table_ok env (u8 (off_at ep 2)) (u8 (sizes 2%nat))
              (ddrphy_pie d) (u8 (table_num (ddrphy_pie d))) l1)
    as (t2 & l2 & -> & R2); [apply u8_table_num_le|].
  cbn [mbind option_bind set_ddrc_cfg set_ddrphy_cfg set_ddrphy_pie
       fsp_msg_0 fsp_cfg].
  destruct (adjust_dram_table_ok env (u8 (off_at ep 3)) (u8 (sizes 3%nat))
              (fsp_cfg (fsp_msg_0 d)) (u8 (table_num (fsp_cfg (fsp_msg_0 d))))
              l2)
    as (t3 & l3 & -> & R3); [apply u8_table_num_le|].
  cbn [mbind option_bind set_ddrc_cfg set_ddrphy_cfg set_ddrphy_pie
       set_fsp_cfg_0 fsp_msg_1 fsp_cfg].
  destruct (adjust_dram_table_ok env (u8 (off_at ep 4)) (u8 (sizes 4%nat))
              (fsp_cfg (fsp_msg_1 d)) (u8 (table_num (fsp_cfg (fsp_msg_1 d))))
              l3)
    as (t4 & l4 & -> & R4); [apply u8_table_num_le|].
  cbn [mbind option_bind].
  eexists _, l4. split; [reflexivity|]. cbn. done.
Qed.

End MergeFacts.

(** ** The adjustment engine as a whole *)

Section EngineFacts.

Variable var_eeprom_is_valid : var_eeprom -> bool.

(** C4: for a record that is not trusted, or whose version is below 2,
    [var_eeprom_adjust_dram] returns with the timing structure and the
    bus log exactly as they were. *)
Theorem adjust_dram_noop env stack ep d log :
  var_eeprom_is_valid ep = false ∨ version ep < 2 →
  var_eeprom_adjust_dram var_eeprom_is_valid env stack ep d log
  = Some (d, log).
Proof.
  intros Hgate. unfold var_eeprom_adjust_dram.
  destruct (var_eeprom_is_valid ep); simpl; [|done].
  destruct (Z.ltb_spec (version ep) 2) as [_|Hge]; [done|].
  destruct Hgate; [done | lia].
Qed.

(** C6: for a trusted record of version 2 or more the engine ends with
    the [drate] of both [fsp_msg] entries and entry 0 of [fsp_table]
    equal to the record's [fsp_drate]. *)
Theorem fsp_drate_override env stack ep d log :
  var_eeprom_is_valid ep = true → 2 <= version ep →
  (0 < length (fsp_table d))%nat →
  ∃ d' log',
    var_eeprom_adjust_dram var_eeprom_is_valid env stack ep d log
    = Some (d', log')
    ∧ drate (fsp_msg_0 d') = fsp_drate ep
    ∧ drate (fsp_msg_1 d') = fsp_drate ep
    ∧ fsp_table d' !! 0%nat = Some (fsp_drate ep).
Proof.
  intros Hvalid Hver Htab. unfold var_eeprom_adjust_dram.
  rewrite Hvalid. cbn [negb].
  destruct (Z.ltb_spec (version ep) 2) as [Hlt|_]; [lia|].
  destruct (adjust_tables_frame env ep (calc_sizes DRAM_TABLE_NUM 0 ep stack)
              d log)
    as (d1 & log1 & -> & _ & _ & _ & _ & _ & _ & _ & Htable).
  simpl. eexists _, log1. split; [reflexivity|]. simpl.
  repeat split. apply list_lookup_insert_eq. by rewrite Htable.
Qed.

End EngineFacts.

Lemma adjust_dram_noop_witness :
  var_eeprom_adjust_dram (fun _ => false) sample_env stale_stack
    sample_eeprom sample_timing []
  = Some (sample_timing, []).
Proof.
  apply (adjust_dram_noop (fun _ => false) sample_env stale_stack
           sample_eeprom sample_timing []).
  left. reflexivity.
Defined.

Lemma fsp_drate_override_witness :
  ∃ d' log',
    var_eeprom_adjust_dram (fun _ => true) sample_env stale_stack
      sample_eeprom sample_timing []
    = Some (d', log')
    ∧ drate (fsp_msg_0 d') = 3733
    ∧ drate (fsp_msg_1 d') = 3733
    ∧ fsp_table d' !! 0%nat = Some 3733.
Proof.
  apply (fsp_drate_override (fun _ => true) sample_env stale_stack
           sample_eeprom sample_timing []).
  - reflexivity.
  - simpl. lia.
  - simpl. lia.
Defined.

(** C1: on [short_eeprom], whose [off[2]] is zero, with every stack slot
    holding 1, the engine still fetches a row for each of the tables 1
    to 4 (at the offsets 72, 0, 0 and 0) and overwrites a value of the
    DDR PHY table, the base table of the absent table 1. *)
Theorem absent_tables_use_stale_sizes :
  off_at short_eeprom 2 = 0
  ∧ var_eeprom_adjust_dram (fun _ => true) short_env stale_stack
      short_eeprom sample_timing []
    = Some
        ({| ddrc_cfg :=
              [ {| reg := 0x100; val := 1 |}; {| reg := 0x104; val := 2 |};
                {| reg := 0x108; val := 0xAA |}; {| reg := 0x10c; val := 4 |} ];
            ddrphy_cfg :=
              [ {| reg := 0x200; val := 0xBB |}; {| reg := 0x204; val := 6 |} ];
            ddrphy_pie := [ {| reg := 0x300; val := 7 |} ];
            fsp_msg_0 :=
              {| drate := 3733; fsp_cfg := [ {| reg := 0x400; val := 8 |} ] |};
            fsp_msg_1 :=
              {| drate := 3733; fsp_cfg := [ {| reg := 0x500; val := 9 |} ] |};
            fsp_table := [3733; 0; 0; 0] |},
         [ EvRead 0 8; EvGetDev; EvRead 0 8; EvGetDev; EvRead 0 8; EvGetDev;
           EvRead 72 8; EvGetDev; EvRead 64 8; EvGetDev ]).
Proof. split; vm_compute; reflexivity. Qed.

(** ** The carrier record *)

Lemma byte_val_range (b : byte) : 0 <= byte_val b < 256.
Proof. unfold byte_val. pose proof (Byte.to_N_bounded b). lia. Qed.

Lemma lor_shiftl_low (a b n : Z) :
  0 <= n → 0 <= b < 2 ^ n → Z.lor (Z.shiftl a n) b = a * 2 ^ n + b.
Proof.
  intros Hn Hb. rewrite Z.shiftl_mul_pow2 by done.
  assert (Z.land (a * 2 ^ n) b = 0) as Hland.
  { apply Z.bits_inj'. intros k Hk. rewrite Z.land_spec, Z.bits_0.
    destruct (Z.lt_ge_cases k n) as [Hlow|Hhigh].
    - by rewrite Z.mul_pow2_bits_low.
    - rewrite <- (Z.mod_small b (2 ^ n)) by done.
      rewrite Z.mod_pow2_bits_high by lia. apply andb_false_r. }
  by rewrite <- Z.lxor_lor, <- Z.add_nocarry_lxor.
Qed.

Lemma htons_swaps (a b : Z) :
  0 <= a < 256 → 0 <= b < 256 → htons (a + 256 * b) = 256 * a + b.
Proof.
  intros Ha Hb. unfold htons. change 255 with (Z.ones 8).
  rewrite !Z.land_ones, Z.shiftr_div_pow2 by lia.
  change (2 ^ 8) with 256.
  replace ((a + 256 * b) mod 256) with a
    by (apply (Z.mod_unique _ 256 b a); lia).
  replace ((a + 256 * b) / 256) with b
    by (apply (Z.div_unique _ 256 b a); lia).
  rewrite Z.mod_small by lia.
  rewrite lor_shiftl_low; lia.
Qed.

(** [htons(ep->magic)] is the magic tag read in network byte order. *)
Lemma htons_magic (ep : var_carrier_eeprom) :
  (2 ≤ length ep)%nat → htons (magic ep) = be_load (take 2 ep).
Proof.
  intros Hlen. destruct ep as [|b0 [|b1 rest]]; simpl in Hlen; try lia.
  unfold magic, le_load, be_load. simpl.
  pose proof (byte_val_range b0). pose proof (byte_val_range b1).
  rewrite Z.mul_0_r, Z.add_0_r, Z.add_0_l. by apply htons_swaps.
Qed.

Lemma Byte_eqb_true (c : byte) : Byte.eqb c c = true.
Proof. by apply Byte.byte_dec_lb. Qed.

Section StrncpyFacts.

Variable pad : bool.

Lemma strncpy_bytes_text (src old : list byte) (n : nat) :
  (n ≤ length old)%nat → (n ≤ length src)%nat ∨ x00 ∈ src →
  ∃ w,
    strncpy_bytes pad src old n = Some w
    ∧ length w = n
    ∧ take (n `min` S (length (c_string src))) w
      = take n (c_string src ++ [x00]).
Proof.
  revert src old.
  induction n as [|n IH]; intros src old Hold Hsrc; simpl.
  - by exists [].
  - destruct src as [|c src'].
    { exfalso. destruct Hsrc as [Hlen|Hin]; [simpl in Hlen; lia|].
      by apply elem_of_nil in Hin. }
    destruct old as [|o old']; [simpl in Hold; lia|].
    simpl in Hold. simpl.
    destruct (Byte.eqb c x00) eqn:Hc.
    + eexists. split; [reflexivity|]. split.
      * simpl. f_equal. destruct pad.
        -- apply length_replicate.
        -- rewrite length_take. lia.
      * simpl. by rewrite Nat.min_0_r, take_0, take_nil.
    + destruct (IH src' old') as (w & -> & Hw & Htext); [lia | |].
      { destruct Hsrc as [Hlen|Hin]; [left; simpl in Hlen; lia|].
        right. apply elem_of_cons in Hin as [Heq|Hin]; [|done].
        subst c. by rewrite Byte_eqb_true in Hc. }
      exists (c :: w). split; [done|]. split; [simpl; lia|].
      simpl. by rewrite Htext.
Qed.

Lemma strncpy_text (dst src : list byte) (n : nat) :
  (n ≤ length dst)%nat → (n ≤ length src)%nat ∨ x00 ∈ src →
  ∃ w,
    strncpy pad dst src n = Some w
    ∧ length w = length dst
    ∧ take (n `min` S (length (c_string src))) w
      = take n (c_string src ++ [x00])
    ∧ drop n w = drop n dst.
Proof.
  intros Hdst Hsrc. unfold strncpy. rewrite decide_True by done.
  destruct (strncpy_bytes_text src dst n Hdst Hsrc) as (w & -> & Hw & Htext).
  simpl. eexists. split; [reflexivity|]. split; [|split].
  - rewrite length_app, length_drop. lia.
  - rewrite take_app_le by lia. done.
  - by rewrite drop_app_length'.
Qed.

End StrncpyFacts.

Section CarrierFacts.

Variable crc32 : Z -> list byte -> Z.
Variable VAR_CARRIER_EEPROM_MAGIC : Z.
Variable CARRIER_REV_LEN : nat.
Variable strncpy_pads : bool.

Local Abbreviation is_valid :=
  (var_carrier_eeprom_is_valid CARRIER_REV_LEN crc32 VAR_CARRIER_EEPROM_MAGIC).
Local Abbreviation get_revision :=
  (var_carrier_eeprom_get_revision CARRIER_REV_LEN crc32
     VAR_CARRIER_EEPROM_MAGIC strncpy_pads).

(** What the code does for a version of 2 or more: the computed CRC32 is
    compared with the [crc] member as the host loads it. *)
Lemma carrier_valid_iff_host_crc (ep : var_carrier_eeprom) :
  htons (magic ep) = VAR_CARRIER_EEPROM_MAGIC → 2 <= struct_ver ep →
  is_valid ep = true
  ↔ u32 (crc32 0 (take (crc_offset CARRIER_REV_LEN) ep))
    = le_load (crc_bytes CARRIER_REV_LEN ep).
Proof.
  intros Hmagic Hver. unfold var_carrier_eeprom_is_valid, crc.
  rewrite Hmagic, Z.eqb_refl. cbn [negb].
  destruct (Z.ltb_spec (struct_ver ep) 1); [lia|].
  destruct (Z.eqb_spec (struct_ver ep) 1); [lia|].
  destruct (Z.eqb_spec
              (u32 (crc32 0 (take (crc_offset CARRIER_REV_LEN) ep)))
              (le_load (crc_bytes CARRIER_REV_LEN ep))); cbn [negb];
    split; try done.
Qed.

(** The cases of the validation as the code decides them: a record whose
    magic tag, read in network byte order, is not the constant is
    invalid; so is one whose [struct_ver] is 0; with the right magic,
    [struct_ver] 1 is valid whatever the other bytes are, and
    [struct_ver] 2 or more is valid when the [crc] member, as the host
    loads it, is the CRC32 of the bytes before it. *)
Theorem carrier_validation_cases (ep : var_carrier_eeprom) :
  length ep = sizeof_var_carrier_eeprom CARRIER_REV_LEN →
  (be_load (take 2 ep) ≠ VAR_CARRIER_EEPROM_MAGIC → is_valid ep = false)
  ∧ (struct_ver ep = 0 → is_valid ep = false)
  ∧ (be_load (take 2 ep) = VAR_CARRIER_EEPROM_MAGIC → struct_ver ep = 1 →
     is_valid ep = true)
  ∧ (be_load (take 2 ep) = VAR_CARRIER_EEPROM_MAGIC → 2 <= struct_ver ep →
     crc CARRIER_REV_LEN ep
     = u32 (crc32 0 (take (crc_offset CARRIER_REV_LEN) ep)) →
     is_valid ep = true).
Proof.
  intros Hlen.
  assert (htons (magic ep) = be_load (take 2 ep)) as Hnet.
  { apply htons_magic. rewrite Hlen.
    unfold sizeof_var_carrier_eeprom, crc_offset. lia. }
  unfold var_carrier_eeprom_is_valid. rewrite Hnet.
  repeat split.
  - intros Hbad.
    by destruct (Z.eqb_spec (be_load (take 2 ep)) VAR_CARRIER_EEPROM_MAGIC).
  - intros ->. by destruct (negb _).
  - intros -> ->. by rewrite Z.eqb_refl.
  - intros -> Hver ->. rewrite !Z.eqb_refl. cbn [negb].
    destruct (Z.ltb_spec (struct_ver ep) 1); [lia|].
    by destruct (struct_ver ep =? 1).
Qed.


End CarrierFacts.

Lemma carrier_validation_cases_witness :
  var_carrier_eeprom_is_valid 16 crc32_zlib 0x5643 carrier_bad_magic = false
  ∧ var_carrier_eeprom_is_valid 16 crc32_zlib 0x5643 carrier_ver0 = false
  ∧ var_carrier_eeprom_is_valid 16 crc32_zlib 0x5643 carrier_v1 = true
  ∧ var_carrier_eeprom_is_valid 16 crc32_zlib 0x5643 carrier_v2_host = true.
Proof.
  split; [|split; [|split]].
  - destruct (carrier_validation_cases crc32_zlib 0x5643 16 carrier_bad_magic)
      as (Hmagic & _).
    + reflexivity.
    + apply Hmagic. intros Heq. vm_compute in Heq. discriminate Heq.
  - destruct (carrier_validation_cases crc32_zlib 0x5643 16 carrier_ver0)
      as (_ & Hver0 & _).
    + reflexivity.
    + apply Hver0. reflexivity.
  - destruct (carrier_validation_cases crc32_zlib 0x5643 16 carrier_v1)
      as (_ & _ & Hver1 & _).
    + reflexivity.
    + apply Hver1; reflexivity.
  - destruct (carrier_validation_cases crc32_zlib 0x5643 16 carrier_v2_host)
      as (_ & _ & _ & Hver2).
    + reflexivity.
    + apply Hver2.
      * reflexivity.
      * intros Hlt. vm_compute in Hlt. discriminate Hlt.
      * vm_compute. reflexivity.
Defined.



(** C2: [carrier_v2_net] has the right magic, [struct_ver] 2 and, in
    network byte order, the CRC32 of its first 19 bytes as its checksum;
    the code loads the checksum least significant byte first and rejects
    the record.  It accepts [carrier_v2_host], whose checksum read in
    network byte order is not the CRC32. *)
Theorem carrier_crc_read_in_host_order :
  htons (magic carrier_v2_net) = 0x5643
  ∧ struct_ver carrier_v2_net = 2
  ∧ be_load (crc_bytes 16 carrier_v2_net)
    = crc32_zlib 0 (take (crc_offset 16) carrier_v2_net)
  ∧ crc 16 carrier_v2_net = 0x442A7125
  ∧ var_carrier_eeprom_is_valid 16 crc32_zlib 0x5643 carrier_v2_net = false
  ∧ be_load (crc_bytes 16 carrier_v2_host)
    ≠ crc32_zlib 0 (take (crc_offset 16) carrier_v2_host)
  ∧ var_carrier_eeprom_is_valid 16 crc32_zlib 0x5643 carrier_v2_host = true.
Proof.
  repeat split; try (vm_compute; reflexivity).
  intros Heq. vm_compute in Heq. discriminate Heq.
Qed.

(** C5: [carrier_v3_net] has the magic in network byte order, a
    [struct_ver] of 3 and, stored in network byte order as the magic is,
    the CRC32 of the bytes before the checksum; the code rejects it. *)
Theorem carrier_net_order_checksum_rejected :
  be_load (take 2 carrier_v3_net) = 0x5643
  ∧ 2 <= struct_ver carrier_v3_net
  ∧ length carrier_v3_net = sizeof_var_carrier_eeprom 16
  ∧ be_load (crc_bytes 16 carrier_v3_net)
    = crc32_zlib 0 (take (crc_offset 16) carrier_v3_net)
  ∧ var_carrier_eeprom_is_valid 16 crc32_zlib 0x5643 carrier_v3_net = false.
Proof.
  split; [reflexivity|]. split; [|split; [reflexivity|split]].
  - intros Hlt. vm_compute in Hlt. discriminate Hlt.
  - vm_compute. reflexivity.
  - vm_compute. reflexivity.
Qed.

(** ** The merge and its rows *)

Section MergeRowsFacts.

Implicit Types (table rows : list dram_cfg_param) (row : dram_cfg_param).

(** With the device found, [adjust_dram_table] is the merge of
    [adj_table_size] rows from cursor 0. *)
Lemma adjust_dram_table_merges env adj_off adj_size table table_size log :
  get_dev_ok env log = true →
  adjust_dram_table env adj_off adj_size table table_size log
  = '(table', _, log') ←
      adjust_rows env (Z.to_nat adj_size) adj_off table
                  (Z.to_nat table_size) 0 (EvGetDev :: log);
    Some (table', log').
Proof.
  intros Hdev. unfold adjust_dram_table, var_eeprom_get_dev.
  by rewrite Hdev.
Qed.

(** The count that reaches [adjust_dram_table] is the length of the table
    as long as the table has fewer than 256 entries. *)
Lemma u8_table_num_small table :
  (length table < 256)%nat →
  Z.to_nat (u8 (table_num table)) = length table.
Proof.
  intros Hlen. unfold u8, table_num, u32.
  change (2 ^ 32) with 4294967296. change (2 ^ 8) with 256.
  rewrite (Z.mod_small _ 4294967296) by lia.
  rewrite Z.mod_small by lia. lia.
Qed.

Lemma adjust_rows_merge env n off table table_size j log :
  adjust_rows env n off table table_size j log
  = '(table', j') ← merge_rows (fetched_rows env n off log) table table_size j;
    Some (table', j',
          reverse ((λ o, EvRead o sizeof_dram_cfg_param) <$> row_offsets n off)
          ++ log).
Proof.
  revert off table j log.
  induction n as [|n IH]; intros off table j log; simpl; [done|].
  destruct (scan_table (table_size - j) (read_row env log off) table j)
    as [[t1 j1]|]; simpl; [|done].
  rewrite IH.
  destruct (merge_rows _ t1 table_size j1) as [[t2 j2]|]; simpl; [|done].
  by rewrite reverse_cons, <- app_assoc.
Qed.

Lemma row_offsets_closed n off :
  0 <= off < 256 →
  row_offsets n off
  = (λ k : nat, (off + sizeof_dram_cfg_param * Z.of_nat k) mod 256) <$> seq 0 n.
Proof.
  revert off. induction n as [|n IH]; intros off Hoff; simpl; [done|].
  f_equal.
  - rewrite Z.mul_0_r, Z.add_0_r, Z.mod_small; lia.
  - rewrite IH by (unfold u8; apply Z.mod_pos_bound; lia).
    rewrite <- fmap_S_seq, <- list_fmap_compose.
    apply list_fmap_ext. intros _ k _. simpl. unfold u8, sizeof_dram_cfg_param.
    change (2 ^ 8) with 256. rewrite Zplus_mod_idemp_l. f_equal. lia.
Qed.

Lemma scan_table_cases n row table j :
  (j + n ≤ length table)%nat →
  scan_table n row table j = Some (table, (j + n)%nat)
  ∨ ∃ k e,
      (j ≤ k < j + n)%nat ∧ table !! k = Some e ∧ reg e = reg row
      ∧ scan_table n row table j
        = Some (<[k := {| reg := reg e; val := val row |}]> table, k).
Proof.
  revert j. induction n as [|n IH]; intros j Hlen; simpl.
  - left. do 2 f_equal. lia.
  - destruct (lookup_lt_is_Some_2 table j) as [e He]; [lia|].
    rewrite He. simpl.
    destruct (Z.eqb_spec (reg e) (reg row)) as [Heq|Hne].
    + right. exists j, e. repeat split; try done; lia.
    + destruct (IH (S j)) as [Hnone|(k & e' & Hk & He' & Hreg & Hscan)];
        [lia| |].
      * left. rewrite Hnone. do 2 f_equal. lia.
      * right. exists k, e'. repeat split; try done; lia.
Qed.

Lemma merge_rows_ok rows table table_size j :
  (table_size ≤ length table)%nat → (j ≤ table_size)%nat →
  ∃ table' j',
    merge_rows rows table table_size j = Some (table', j')
    ∧ reg <$> table' = reg <$> table
    ∧ drop table_size table' = drop table_size table
    ∧ (j ≤ j' ≤ table_size)%nat
    ∧ ∀ k e e', table !! k = Some e → table' !! k = Some e' →
        e' = e
        ∨ ∃ row, row ∈ rows ∧ reg row = reg e
                 ∧ e' = {| reg := reg e; val := val row |}.
Proof.
  revert table j.
  induction rows as [|row rest IH]; intros table j Hlen Hj; simpl.
  - exists table, j. repeat split; try done; try lia.
    intros k e e' He He'. left. congruence.
  - destruct (scan_table_cases (table_size - j) row table j)
      as [Hnone|(k & ek & Hk & Hek & Hreg & Hscan)]; [lia| |].
    + rewrite Hnone. simpl.
      replace (j + (table_size - j))%nat with table_size by lia.
      destruct (IH table table_size Hlen)
        as (t' & j' & -> & Hregs & Hdrop & Hj' & Hvals); [lia|].
      exists t', j'. repeat split; try done; try lia.
      intros i e e' He He'.
      destruct (Hvals i e e' He He') as [->|(r & Hr & Hrr & ->)];
        [by left|].
      right. exists r. split; [by apply elem_of_cons; right | done].
    + rewrite Hscan. simpl.
      set (t1 := <[k := {| reg := reg ek; val := val row |}]> table).
      assert (length t1 = length table) as Hlen1 by apply length_insert.
      assert (reg <$> t1 = reg <$> table) as Hregs1.
      { unfold t1. rewrite list_fmap_insert. simpl.
        apply list_insert_id. by rewrite list_lookup_fmap, Hek. }
      destruct (IH t1 k) as (t' & j' & -> & Hregs & Hdrop & Hj' & Hvals);
        [lia | lia|].
      exists t', j'. split; [done|]. split; [congruence|].
      split; [|split; [lia|]].
      { rewrite Hdrop. unfold t1. apply drop_insert_lt. lia. }
      intros i e e' He He'.
      destruct (decide (i = k)) as [->|Hik].
      * assert (e = ek) as -> by congruence.
        assert (t1 !! k = Some {| reg := reg ek; val := val row |}) as H1.
        { unfold t1. apply list_lookup_insert_eq.
          by apply lookup_lt_Some in Hek. }
        destruct (Hvals k _ e' H1 He') as [->|(r & Hr & Hrr & ->)].
        -- right. exists row. split; [apply elem_of_cons; by left|].
           split; [done | done].
        -- right. exists r. split; [by apply elem_of_cons; right|].
           simpl in *. done.
      * assert (t1 !! i = Some e) as H1.
        { unfold t1. by rewrite list_lookup_insert_ne. }
        destruct (Hvals i e e' H1 He') as [->|(r & Hr & Hrr & ->)];
          [by left|].
        right. exists r. split; [by apply elem_of_cons; right | done].
Qed.

Lemma row_for_None r rows : r ∉ reg <$> rows → row_for r rows = None.
Proof.
  induction rows as [|row rest IH]; intros Hnot; simpl; [done|].
  rewrite fmap_cons, not_elem_of_cons in Hnot. destruct Hnot as [Hne Hrest].
  destruct (Z.eqb_spec (reg row) r); [congruence | by apply IH].
Qed.

Lemma override_nil table : override [] <$> table = table.
Proof.
  transitivity (id <$> table); [|apply list_fmap_id].
  by apply list_fmap_ext.
Qed.

Lemma merge_rows_ordered rows table j :
  NoDup (reg <$> table) → (j ≤ length table)%nat →
  reg <$> rows `sublist_of` reg <$> drop j table →
  ∃ j',
    merge_rows rows table (length table) j
    = Some (override rows <$> table, j').
Proof.
  revert table j.
  induction rows as [|row rest IH]; intros table j Hnodup Hj Hsub; simpl.
  - exists j. by rewrite override_nil.
  - rewrite fmap_cons, fmap_drop in Hsub.
    apply sublist_cons_l in Hsub as (k1 & k2 & Hsplit & Hsub).
    set (k := (j + length k1)%nat).
    assert ((reg <$> table) !! k = Some (reg row)) as Hk.
    { unfold k. rewrite <- lookup_drop, Hsplit. by apply list_lookup_middle. }
    assert (drop k (reg <$> table) = reg row :: k2) as Hdropk.
    { unfold k. rewrite <- drop_drop, Hsplit. apply drop_app_length. }
    assert (reg row ∉ k2) as Hfresh.
    { assert (NoDup (reg row :: k2)) as Hnd.
      { rewrite <- Hdropk. rewrite <- (take_drop k (reg <$> table)) in Hnodup.
        by apply NoDup_app in Hnodup as (_ & _ & ?). }
      by apply NoDup_cons in Hnd as [? _]. }
    rewrite list_lookup_fmap in Hk.
    destruct (table !! k) as [ek|] eqn:Hek; [|done].
    simpl in Hk. injection Hk as Hregk.
    assert (∀ i e, table !! i = Some e → reg e = reg row → i = k) as Hunique.
    { intros i e He Hreg.
      apply (NoDup_lookup (reg <$> table) i k (reg row) Hnodup).
      - by rewrite list_lookup_fmap, He, <- Hreg.
      - by rewrite list_lookup_fmap, Hek, <- Hregk. }
    rewrite (scan_table_first_match row table j (length table) k ek).
    2: { split; [|split; [done|split; [done|]]].
         - apply lookup_lt_Some in Hek. unfold k in *. lia.
         - intros m e' Hm He' Hreg. apply Hunique in He'; [lia | done]. }
    simpl.
    set (t1 := <[k := {| reg := reg ek; val := val row |}]> table).
    assert (reg <$> t1 = reg <$> table) as Hregs1.
    { unfold t1. rewrite list_fmap_insert. simpl.
      apply list_insert_id. by rewrite list_lookup_fmap, Hek. }
    destruct (IH t1 k) as (j' & Hmerge).
    { by rewrite Hregs1. }
    { unfold t1. rewrite length_insert. apply lookup_lt_Some in Hek. lia. }
    { rewrite fmap_drop, Hregs1, Hdropk. by apply sublist_cons. }
    unfold t1 in Hmerge at 2. rewrite length_insert in Hmerge.
    exists j'. rewrite Hmerge. do 2 f_equal.
    apply list_eq. intros i. rewrite !list_lookup_fmap.
    destruct (decide (i = k)) as [->|Hik].
    + unfold t1. rewrite list_lookup_insert_eq
        by (by apply lookup_lt_Some in Hek).
      rewrite Hek. simpl. f_equal. unfold override. simpl.
      rewrite Hregk, Z.eqb_refl, row_for_None; [done|].
      intros Hin. apply Hfresh.
      by apply (elem_of_sublist (reg <$> rest)).
    + unfold t1. rewrite list_lookup_insert_ne by done.
      destruct (table !! i) as [e|] eqn:He; [|done].
      simpl. f_equal. unfold override. simpl.
      destruct (Z.eqb_spec (reg row) (reg e)) as [Heq|_]; [|done].
      exfalso. apply Hik. by apply (Hunique i e).
Qed.

(** X1: with the device found, [adjust_dram_table] issues exactly
    [adj_table_size] reads of one row each, the read number [k] at offset
    [(adj_table_offset + 8 k) mod 256]: the offset is kept in a [u8] and
    wraps. *)
Theorem adjust_dram_table_reads env adj_off adj_size table table_size log :
  get_dev_ok env log = true → 0 <= adj_off < 256 →
  (Z.to_nat table_size ≤ length table)%nat →
  ∃ table',
    adjust_dram_table env adj_off adj_size table table_size log
    = Some (table',
            reverse ((λ k : nat,
                        EvRead ((adj_off + 8 * Z.of_nat k) mod 256) 8)
                       <$> seq 0 (Z.to_nat adj_size))
            ++ EvGetDev :: log).
Proof.
  intros Hdev Hoff Hlen.
  rewrite adjust_dram_table_merges, adjust_rows_merge by done.
  destruct (merge_rows_ok
              (fetched_rows env (Z.to_nat adj_size) adj_off (EvGetDev :: log))
              table (Z.to_nat table_size) 0)
    as (t' & j' & -> & _); [done | lia|].
  simpl. exists t'. do 3 f_equal.
  rewrite row_offsets_closed by done.
  by rewrite <- list_fmap_compose.
Qed.

(** X2: when the table has fewer than 256 entries with pairwise different
    register addresses, and the register addresses of the fetched rows
    occur in the table in the same order (the assumption the source
    states), every row is applied: the table ends as the one in which
    each entry carries the value of the row for its register address. *)
Theorem ordered_rows_all_applied env adj_off adj_size table log :
  get_dev_ok env log = true → (length table < 256)%nat →
  NoDup (reg <$> table) →
  reg <$> fetched_rows env (Z.to_nat adj_size) adj_off (EvGetDev :: log)
    `sublist_of` reg <$> table →
  ∃ log',
    adjust_dram_table env adj_off adj_size table (u8 (table_num table)) log
    = Some (override
              (fetched_rows env (Z.to_nat adj_size) adj_off (EvGetDev :: log))
            <$> table, log').
Proof.
  intros Hdev Hlen Hnodup Hsub.
  rewrite adjust_dram_table_merges, adjust_rows_merge by done.
  rewrite u8_table_num_small by done.
  destruct (merge_rows_ordered
              (fetched_rows env (Z.to_nat adj_size) adj_off (EvGetDev :: log))
              table 0 Hnodup) as (j' & ->); [lia | done|].
  simpl. by eexists.
Qed.

(** X3: in a table whose first [table_size] register addresses are
    pairwise different, a row whose register address sits before the
    cursor is not applied, and no row after it is: the table stays as it
    is and the cursor ends at [table_size]. *)
Theorem row_behind_cursor_dropped env n off table table_size j log m e :
  (table_size ≤ length table)%nat →
  NoDup (reg <$> take table_size table) →
  (m < j ≤ table_size)%nat → table !! m = Some e →
  reg (read_row env log off) = reg e →
  ∃ log',
    adjust_rows env (S n) off table table_size j log
    = Some (table, table_size, log').
Proof.
  intros Hlen Hnodup Hm He Hreg. simpl.
  rewrite scan_table_no_match; [|done|lia|].
  - simpl. apply adjust_rows_exhausted.
  - intros i e' Hi He' Heq.
    assert (m = i); [|lia].
    apply (NoDup_lookup _ m i (reg e) Hnodup).
    + rewrite list_lookup_fmap, lookup_take_lt by lia. by rewrite He.
    + rewrite list_lookup_fmap, lookup_take_lt by lia.
      rewrite He'. simpl. congruence.
Qed.

(** X4: [adjust_dram_table] ends on every table that holds [table_size]
    entries, keeps its length, and every entry it leaves is either the
    entry that was there or that entry with the value of a fetched row of
    the same register address; without the device nothing changes. *)
Theorem adjusted_values_come_from_rows env adj_off adj_size table table_size
    log :
  (Z.to_nat table_size ≤ length table)%nat →
  ∃ table' log',
    adjust_dram_table env adj_off adj_size table table_size log
    = Some (table', log')
    ∧ length table' = length table
    ∧ (get_dev_ok env log = false → table' = table)
    ∧ ∀ k e e', table !! k = Some e → table' !! k = Some e' →
        e' = e
        ∨ ∃ row,
            row ∈ fetched_rows env (Z.to_nat adj_size) adj_off
                    (EvGetDev :: log)
            ∧ reg row = reg e
            ∧ e' = {| reg := reg e; val := val row |}.
Proof.
  intros Hlen. destruct (get_dev_ok env log) eqn:Hdev.
  - rewrite adjust_dram_table_merges, adjust_rows_merge by done.
    destruct (merge_rows_ok
                (fetched_rows env (Z.to_nat adj_size) adj_off (EvGetDev :: log))
                table (Z.to_nat table_size) 0)
      as (t' & j' & -> & Hregs & _ & _ & Hvals); [done | lia|].
    simpl. eexists _, _. split; [reflexivity|]. split; [|split; [done|done]].
    by rewrite <- (length_fmap reg t'), Hregs, length_fmap.
  - unfold adjust_dram_table, var_eeprom_get_dev. rewrite Hdev. simpl.
    eexists _, _. split; [reflexivity|]. split; [done|]. split; [done|].
    intros k e e' He He'. left. congruence.
Qed.

Lemma u8_table_num_mod table :
  Z.to_nat (u8 (table_num table)) = (length table mod 256)%nat.
Proof.
  unfold u8, table_num, u32.
  rewrite Z.mod_mod_divide by (exists (2 ^ 24); reflexivity).
  change (2 ^ 8) with (Z.of_nat 256). rewrite <- Nat2Z.inj_mod.
  apply Nat2Z.id.
Qed.

Lemma adjust_dram_table_tail env adj_off adj_size table log :
  ∃ table' log',
    adjust_dram_table env adj_off adj_size table (u8 (table_num table)) log
    = Some (table', log')
    ∧ length table' = length table
    ∧ drop (length table mod 256) table' = drop (length table mod 256) table.
Proof.
  unfold adjust_dram_table, var_eeprom_get_dev.
  destruct (get_dev_ok env log); simpl.
  - rewrite adjust_rows_merge.
    destruct (merge_rows_ok
                (fetched_rows env (Z.to_nat adj_size) adj_off (EvGetDev :: log))
                table (Z.to_nat (u8 (table_num table))) 0)
      as (t' & j' & -> & Hregs & Hdrop & _); [apply u8_table_num_le | lia|].
    rewrite u8_table_num_mod in Hdrop.
    cbn [mbind option_bind]. eexists _, _. split; [reflexivity|]. split.
    + by rewrite <- (length_fmap reg t'), Hregs, length_fmap.
    + exact Hdrop.
  - by eexists _, _.
Qed.

End MergeRowsFacts.

(** ** The engine on whole timing structures *)

Section EngineMoreFacts.

Variable var_eeprom_is_valid : var_eeprom -> bool.

Lemma adjust_tables_tail env ep sizes d log :
  ∃ d' log',
    adjust_tables env ep sizes 0 (mx9_adjust_table d) d log = Some (d', log')
    ∧ drop (length (ddrc_cfg d) mod 256) (ddrc_cfg d')
      = drop (length (ddrc_cfg d) mod 256) (ddrc_cfg d)
    ∧ drop (length (ddrphy_cfg d) mod 256) (ddrphy_cfg d')
      = drop (length (ddrphy_cfg d) mod 256) (ddrphy_cfg d)
    ∧ drop (length (ddrphy_pie d) mod 256) (ddrphy_pie d')
      = drop (length (ddrphy_pie d) mod 256) (ddrphy_pie d)
    ∧ drop (length (fsp_cfg (fsp_msg_0 d)) mod 256) (fsp_cfg (fsp_msg_0 d'))
      = drop (length (fsp_cfg (fsp_msg_0 d)) mod 256) (fsp_cfg (fsp_msg_0 d))
    ∧ drop (length (fsp_cfg (fsp_msg_1 d)) mod 256) (fsp_cfg (fsp_msg_1 d'))
      = drop (length (fsp_cfg (fsp_msg_1 d)) mod 256) (fsp_cfg (fsp_msg_1 d)).
Proof.
  unfold mx9_adjust_table.
  cbn [adjust_tables cfg_param cfg_num cfg_param_store].
  destruct (adjust_dram_table_tail env (u8 (off_at ep 0)) (u8 (sizes 0%nat))
              (ddrc_cfg d) log) as (t0 & l0 & -> & _ & T0).
  cbn [mbind option_bind set_ddrc_cfg ddrphy_cfg].
  destruct (adjust_dram_table_tail env (u8 (off_at ep 1)) (u8 (sizes 1%nat))
              (ddrphy_cfg d) l0) as (t1 & l1 & -> & _ & T1).
  cbn [mbind option_bind set_ddrc_cfg set_ddrphy_cfg ddrphy_pie].
  destruct (adjust_dram_table_tail env (u8 (off_at ep 2)) (u8 (sizes 2%nat))
              (ddrphy_pie d) l1) as (t2 & l2 & -> & _ & T2).
  cbn [mbind option_bind set_ddrc_cfg set_ddrphy_cfg set_ddrphy_pie
       fsp_msg_0 fsp_cfg].
  destruct (adjust_dram_table_tail env (u8 (off_at ep 3)) (u8 (sizes 3%nat))
              (fsp_cfg (fsp_msg_0 d)) l2) as (t3 & l3 & -> & _ & T3).
  cbn [mbind option_bind set_ddrc_cfg set_ddrphy_cfg set_ddrphy_pie
       set_fsp_cfg_0 fsp_msg_1 fsp_cfg].
  destruct (adjust_dram_table_tail env (u8 (off_at ep 4)) (u8 (sizes 4%nat))
              (fsp_cfg (fsp_msg_1 d)) l3) as (t4 & l4 & -> & _ & T4).
  cbn [mbind option_bind].
  eexists _, l4. split; [reflexivity|].
  cbn [set_ddrc_cfg set_ddrphy_cfg set_ddrphy_pie set_fsp_cfg_0 set_fsp_cfg_1
       ddrc_cfg ddrphy_cfg ddrphy_pie fsp_msg_0 fsp_msg_1 fsp_cfg].
  done.
Qed.

(** X5: the count of a base table reaches [adjust_dram_table] as a [u8],
    so whatever the record and the bus, the engine leaves every entry of
    a base table from index [length mod 256] on as it was; a table of 256
    entries is never adjusted. *)
Theorem entries_beyond_u8_count_untouched env stack ep d log :
  ∃ d' log',
    var_eeprom_adjust_dram var_eeprom_is_valid env stack ep d log
    = Some (d', log')
    ∧ drop (length (ddrc_cfg d) mod 256) (ddrc_cfg d')
      = drop (length (ddrc_cfg d) mod 256) (ddrc_cfg d)
    ∧ drop (length (ddrphy_cfg d) mod 256) (ddrphy_cfg d')
      = drop (length (ddrphy_cfg d) mod 256) (ddrphy_cfg d)
    ∧ drop (length (ddrphy_pie d) mod 256) (ddrphy_pie d')
      = drop (length (ddrphy_pie d) mod 256) (ddrphy_pie d)
    ∧ drop (length (fsp_cfg (fsp_msg_0 d)) mod 256) (fsp_cfg (fsp_msg_0 d'))
      = drop (length (fsp_cfg (fsp_msg_0 d)) mod 256) (fsp_cfg (fsp_msg_0 d))
    ∧ drop (length (fsp_cfg (fsp_msg_1 d)) mod 256) (fsp_cfg (fsp_msg_1 d'))
      = drop (length (fsp_cfg (fsp_msg_1 d)) mod 256) (fsp_cfg (fsp_msg_1 d)).
Proof.
  unfold var_eeprom_adjust_dram.
  destruct (var_eeprom_is_valid ep); cbn [negb].
  2: { by exists d, log. }
  destruct (version ep <? 2).
  { by exists d, log. }
  destruct (adjust_tables_tail env ep (calc_sizes DRAM_TABLE_NUM 0 ep stack)
              d log) as (d1 & log1 & -> & T0 & T1 & T2 & T3 & T4).
  cbn [mbind option_bind]. eexists _, log1. split; [reflexivity|].
  cbn [set_fsp_drate ddrc_cfg ddrphy_cfg ddrphy_pie fsp_msg_0 fsp_msg_1
       fsp_cfg].
  done.
Qed.

(** X6: when the EEPROM device is never found, a trusted record of
    version 2 or more still gets its data rate applied: the engine makes
    five device lookups and no read, leaves all five tables as they are,
    and performs the three [fsp_drate] stores. *)
Theorem engine_without_device env stack ep d log :
  (∀ l, get_dev_ok env l = false) →
  var_eeprom_is_valid ep = true → 2 <= version ep →
  var_eeprom_adjust_dram var_eeprom_is_valid env stack ep d log
  = Some (set_fsp_drate (fsp_drate ep) d, replicate 5 EvGetDev ++ log).
Proof.
  intros Hdev Hvalid Hver. unfold var_eeprom_adjust_dram.
  rewrite Hvalid. cbn [negb].
  destruct (Z.ltb_spec (version ep) 2) as [Hlt|_]; [lia|].
  assert (∀ o s t ts l,
            adjust_dram_table env o s t ts l = Some (t, EvGetDev :: l))
    as Hskip.
  { intros o s t ts l. unfold adjust_dram_table, var_eeprom_get_dev.
    by rewrite Hdev. }
  unfold mx9_adjust_table.
  cbn [adjust_tables cfg_param cfg_num cfg_param_store].
  rewrite Hskip. cbn [mbind option_bind].
  rewrite Hskip. cbn [mbind option_bind].
  rewrite Hskip. cbn [mbind option_bind].
  rewrite Hskip. cbn [mbind option_bind].
  rewrite Hskip. cbn [mbind option_bind].
  destruct d as [c p q [r0 f0] [r1 f1] t]. reflexivity.
Qed.

Lemma calc_sizes_below n i ep a k :
  (k < i)%nat → calc_sizes n i ep a k = a k.
Proof.
  revert i a. induction n as [|n IH]; intros i a Hk; simpl; [done|].
  destruct (off_at ep (i + 1) =? 0); [done|].
  rewrite IH by lia. unfold store_at.
  destruct (Nat.eqb_spec k i); [lia | done].
Qed.

Lemma calc_sizes_at n i ep a k :
  (i ≤ k < i + n)%nat →
  (∀ m, (i ≤ m ≤ k)%nat → off_at ep (m + 1) ≠ 0) →
  calc_sizes n i ep a k
  = u16 (u64 (off_at ep (k + 1) - off_at ep k) / sizeof_dram_cfg_param).
Proof.
  revert i a. induction n as [|n IH]; intros i a Hk Hnz; simpl; [lia|].
  destruct (Z.eqb_spec (off_at ep (i + 1)) 0) as [Hz|_].
  { exfalso. apply (Hnz i); [lia | done]. }
  destruct (decide (k = i)) as [->|Hne].
  - rewrite calc_sizes_below by lia. unfold store_at.
    by rewrite Nat.eqb_refl.
  - apply IH; [lia|]. intros m Hm. apply Hnz. lia.
Qed.

(** X7: for a table [k] before the end of the offset sequence whose
    offsets are in order, the row count the engine computes is
    [(off[k+1] - off[k]) / 8], whatever the stack held. *)
Theorem sizes_of_present_tables ep stack k :
  (k < DRAM_TABLE_NUM)%nat →
  (∀ m, (m ≤ k)%nat → off_at ep (m + 1) ≠ 0) →
  0 <= off_at ep k <= off_at ep (k + 1) → off_at ep (k + 1) < 2 ^ 16 →
  calc_sizes DRAM_TABLE_NUM 0 ep stack k
  = (off_at ep (k + 1) - off_at ep k) / 8.
Proof.
  intros Hk Hnz Hord Hmax.
  rewrite calc_sizes_at; [|lia|intros m Hm; apply Hnz; lia].
  unfold u16, u64, sizeof_dram_cfg_param.
  change (2 ^ 16) with 65536 in *.
  change (2 ^ 64) with 18446744073709551616.
  rewrite (Z.mod_small (_ - _)) by lia.
  apply Z.mod_small. split.
  - apply Z.div_pos; lia.
  - apply Z.div_lt_upper_bound; lia.
Qed.

(** X8: when the offset of table [k + 1] lies a distance [dist] below the
    offset of table [k], the difference wraps in the 64-bit division and
    the row count becomes [65536 - ceil (dist / 8)], which is never zero. *)
Theorem sizes_of_descending_offsets ep stack k :
  (k < DRAM_TABLE_NUM)%nat →
  (∀ m, (m ≤ k)%nat → off_at ep (m + 1) ≠ 0) →
  0 <= off_at ep (k + 1) < off_at ep k → off_at ep k < 2 ^ 16 →
  calc_sizes DRAM_TABLE_NUM 0 ep stack k
  = 65536 - (off_at ep k - off_at ep (k + 1) + 7) / 8
  ∧ 0 < calc_sizes DRAM_TABLE_NUM 0 ep stack k.
Proof.
  intros Hk Hnz Hord Hmax.
  rewrite calc_sizes_at; [|lia|intros m Hm; apply Hnz; lia].
  unfold u16, u64, sizeof_dram_cfg_param.
  change (2 ^ 16) with 65536 in *.
  change (2 ^ 64) with 18446744073709551616.
  set (dist := off_at ep k - off_at ep (k + 1)).
  replace (off_at ep (k + 1) - off_at ep k) with (- dist) by (unfold dist; lia).
  assert (0 < dist < 65536) as Hdist by (unfold dist; lia).
  clearbody dist.
  assert ((- dist) mod 18446744073709551616 = 18446744073709551616 - dist)
    as ->.
  { symmetry. apply (Z.mod_unique _ _ (-1)); lia. }
  pose proof (Z.div_mod (dist + 7) 8 ltac:(lia)) as Hdm.
  pose proof (Z.mod_pos_bound (dist + 7) 8 ltac:(lia)) as Hmb.
  assert ((18446744073709551616 - dist) / 8
          = 2305843009213693952 - (dist + 7) / 8) as ->.
  { symmetry.
    apply (Z.div_unique _ 8 _ (7 - (dist + 7) mod 8)); lia. }
  assert ((2305843009213693952 - (dist + 7) / 8) mod 65536
          = 65536 - (dist + 7) / 8) as ->.
  { symmetry.
    apply (Z.mod_unique _ _ (35184372088831)); lia. }
  split; [done | lia].
Qed.

End EngineMoreFacts.

(** ** The merge against the words of the claims *)

Section MergeSpecFacts.

Implicit Types (table rows : list dram_cfg_param) (row : dram_cfg_param).








End MergeSpecFacts.

Section EngineFrameFacts.

Variable var_eeprom_is_valid : var_eeprom -> bool.

Lemma matched_values_only_refl env table :
  matched_values_only env table table.
Proof. split; [done|]. intros k e e' He He'. left. congruence. Qed.


End EngineFrameFacts.



(** ** Sealing and reading back carrier records *)

Lemma byte_val_byte_of_Z (z : Z) : byte_val (byte_of_Z z) = z mod 256.
Proof.
  unfold byte_val, byte_of_Z.
  pose proof (Z.mod_pos_bound z 256 ltac:(lia)) as Hrange.
  destruct (Byte.of_N (Z.to_N (z mod 256))) as [b|] eqn:Hb.
  - apply Byte.to_of_N in Hb. rewrite Hb. lia.
  - apply Byte.of_N_None_iff in Hb. lia.
Qed.

Lemma byte_of_Z_byte_val (b : byte) (x : Z) :
  byte_of_Z (byte_val b + 256 * x) = b.
Proof.
  unfold byte_of_Z.
  pose proof (byte_val_range b) as Hrange.
  replace ((byte_val b + 256 * x) mod 256) with (byte_val b)
    by (apply (Z.mod_unique _ 256 x); lia).
  unfold byte_val. rewrite N2Z.id, Byte.of_to_N. done.
Qed.

Lemma length_le_store (n : nat) (z : Z) : length (le_store n z) = n.
Proof. revert z. induction n as [|n IH]; intros z; simpl; [done|]. by rewrite IH. Qed.

Lemma le_load_le_store (n : nat) (z : Z) :
  le_load (le_store n z) = z mod 256 ^ Z.of_nat n.
Proof.
  revert z. induction n as [|n IH]; intros z.
  - simpl. by rewrite Z.mod_1_r.
  - change (le_load (le_store (S n) z))
      with (byte_val (byte_of_Z z) + 256 * le_load (le_store n (z / 256))).
    rewrite IH, byte_val_byte_of_Z, Nat2Z.inj_succ, Z.pow_succ_r by lia.
    rewrite Z.rem_mul_r by lia. done.
Qed.

Lemma le_store_le_load (bs : list byte) :
  le_store (length bs) (le_load bs) = bs.
Proof.
  induction bs as [|b bs IH]; [done|].
  change (le_load (b :: bs)) with (byte_val b + 256 * le_load bs).
  simpl. rewrite byte_of_Z_byte_val. f_equal.
  pose proof (byte_val_range b).
  replace ((byte_val b + 256 * le_load bs) / 256) with (le_load bs)
    by (apply (Z.div_unique _ 256 _ (byte_val b)); lia).
  done.
Qed.

Lemma c_string_no_nul (bs : list byte) : x00 ∉ c_string bs.
Proof.
  induction bs as [|c bs IH]; simpl; [apply not_elem_of_nil|].
  destruct (Byte.eqb c x00) eqn:Hc; [apply not_elem_of_nil|].
  apply not_elem_of_cons. split; [|done].
  intros <-. by rewrite Byte_eqb_true in Hc.
Qed.

Lemma c_string_take (bs : list byte) :
  c_string bs = take (length (c_string bs)) bs.
Proof.
  induction bs as [|c bs IH]; simpl; [done|].
  destruct (Byte.eqb c x00); simpl; [done|]. by rewrite <- IH.
Qed.

Lemma c_string_app_nul (text rest : list byte) :
  x00 ∉ text → c_string (text ++ x00 :: rest) = text.
Proof.
  induction text as [|c text IH]; intros Hnot; simpl; [done|].
  apply not_elem_of_cons in Hnot as [Hc Hnot].
  destruct (Byte.eqb c x00) eqn:Heq.
  - apply Byte.byte_dec_bl in Heq. congruence.
  - by rewrite IH.
Qed.

Lemma length_c_string (bs : list byte) :
  (length (c_string bs) ≤ length bs)%nat.
Proof.
  induction bs as [|c bs IH]; simpl; [done|].
  destruct (Byte.eqb c x00); simpl; lia.
Qed.

Section StrncpyReadBack.

Variable pad : bool.

Lemma strncpy_reads_back (dst src : list byte) (n : nat) :
  (n ≤ length dst)%nat → x00 ∈ src → (length (c_string src) < n)%nat →
  ∃ w, strncpy pad dst src n = Some w ∧ c_string w = c_string src.
Proof.
  intros Hdst Hnul Hlen.
  destruct (strncpy_text pad dst src n Hdst) as (w & -> & _ & Htext & _);
    [by right|].
  exists w. split; [done|].
  rewrite Nat.min_r in Htext by lia.
  rewrite (take_ge (c_string src ++ [x00])) in Htext
    by (rewrite length_app; simpl; lia).
  rewrite <- (take_drop (S (length (c_string src))) w), Htext.
  rewrite <- app_assoc. apply c_string_app_nul, c_string_no_nul.
Qed.

Lemma strncpy_cut (dst src : list byte) (n : nat) :
  (n ≤ length dst)%nat → (n ≤ length (c_string src))%nat →
  ∃ w,
    strncpy pad dst src n = Some w
    ∧ take n w = take n src ∧ (x00 ∉ take n w) ∧ drop n w = drop n dst.
Proof.
  intros Hdst Hlen.
  pose proof (length_c_string src) as Hsrc.
  destruct (strncpy_text pad dst src n Hdst) as (w & -> & _ & Htext & Hdrop);
    [left; lia|].
  exists w. split; [done|].
  rewrite Nat.min_l in Htext by lia.
  rewrite take_app_le in Htext by done.
  split; [|split; [|done]].
  - rewrite Htext, (c_string_take src), take_take. f_equal. lia.
  - rewrite Htext. intros Hin.
    apply elem_of_take in Hin as (i & Hi & _).
    apply (c_string_no_nul src). by eapply list_elem_of_lookup_2.
Qed.

End StrncpyReadBack.

Section CarrierMoreFacts.

Variable crc32 : Z -> list byte -> Z.
Variable VAR_CARRIER_EEPROM_MAGIC : Z.
Variable CARRIER_REV_LEN : nat.
Variable strncpy_pads : bool.

Local Abbreviation is_valid :=
  (var_carrier_eeprom_is_valid CARRIER_REV_LEN crc32 VAR_CARRIER_EEPROM_MAGIC).
Local Abbreviation get_revision :=
  (var_carrier_eeprom_get_revision CARRIER_REV_LEN crc32
     VAR_CARRIER_EEPROM_MAGIC strncpy_pads).

(** X9: a record of the size of the structure, with the right magic and a
    [struct_ver] of 2 or more, is valid exactly when its four checksum
    bytes are the CRC32 of the bytes before them, least significant byte
    first. *)
Theorem carrier_valid_iff_sealed (ep : var_carrier_eeprom) :
  length ep = sizeof_var_carrier_eeprom CARRIER_REV_LEN →
  be_load (take 2 ep) = VAR_CARRIER_EEPROM_MAGIC → 2 <= struct_ver ep →
  is_valid ep = true
  ↔ crc_bytes CARRIER_REV_LEN ep
    = le_store 4 (crc32 0 (take (crc_offset CARRIER_REV_LEN) ep)).
Proof.
  intros Hlen Hmagic Hver.
  assert (length (crc_bytes CARRIER_REV_LEN ep) = 4%nat) as Hcrc.
  { unfold crc_bytes. rewrite length_take, length_drop, Hlen.
    unfold sizeof_var_carrier_eeprom. lia. }
  rewrite carrier_valid_iff_host_crc; [|rewrite htons_magic|]; try done.
  2: { rewrite Hlen. unfold sizeof_var_carrier_eeprom, crc_offset. lia. }
  unfold u32. change (2 ^ 32) with (256 ^ Z.of_nat 4).
  rewrite <- le_load_le_store. split.
  - intros Heq.
    pose proof (le_store_le_load (crc_bytes CARRIER_REV_LEN ep)) as Hback.
    pose proof (le_store_le_load
                  (le_store 4 (crc32 0 (take (crc_offset CARRIER_REV_LEN) ep))))
      as Hthere.
    rewrite Hcrc in Hback. rewrite length_le_store in Hthere.
    by rewrite <- Hback, <- Heq, Hthere.
  - by intros ->.
Qed.

(** X10: sealing validates.  Any [crc_offset] bytes that start with the
    magic in network byte order and carry a [struct_ver] of 2 or more
    become a valid record once their CRC32 is appended least significant
    byte first, whatever follows the checksum. *)
Theorem sealed_record_validates (head rest : list byte) :
  length head = crc_offset CARRIER_REV_LEN →
  be_load (take 2 head) = VAR_CARRIER_EEPROM_MAGIC → 2 <= struct_ver head →
  is_valid (head ++ le_store 4 (crc32 0 head) ++ rest) = true.
Proof.
  intros Hlen Hmagic Hver.
  assert (3 ≤ length head)%nat as H3 by (rewrite Hlen; unfold crc_offset; lia).
  apply carrier_valid_iff_host_crc.
  - unfold magic. rewrite take_app_le by lia.
    change (le_load (take 2 head)) with (magic head).
    rewrite htons_magic by lia. done.
  - unfold struct_ver. rewrite drop_app_le by lia.
    rewrite take_app_le by (rewrite length_drop; lia). done.
  - unfold crc_bytes. rewrite take_app_length', drop_app_length' by done.
    rewrite take_app_length' by (by rewrite length_le_store).
    rewrite le_load_le_store. done.
Qed.

(** X11: read back as a C string, the buffer holds the revision text: for
    a valid record whose [carrier_rev] is NUL-terminated and shorter than
    [size], the text of [carrier_rev]; for an invalid record and a [size]
    of 7 or more, "legacy". *)
Theorem get_revision_reads_back (ep : var_carrier_eeprom) (rev : list byte)
    (size : nat) :
  (size ≤ length rev)%nat →
  (is_valid ep = true → x00 ∈ carrier_rev CARRIER_REV_LEN ep →
   (length (c_string (carrier_rev CARRIER_REV_LEN ep)) < size)%nat →
   ∃ rev',
     get_revision ep rev size = Some rev'
     ∧ c_string rev' = c_string (carrier_rev CARRIER_REV_LEN ep))
  ∧ (is_valid ep = false → (7 ≤ size)%nat →
     ∃ rev',
       get_revision ep rev size = Some rev'
       ∧ c_string rev' = list_byte_of_string "legacy").
Proof.
  intros Hsize. unfold var_carrier_eeprom_get_revision. split.
  - intros -> Hnul Hlen. by apply strncpy_reads_back.
  - intros -> H7.
    apply (strncpy_reads_back strncpy_pads rev
             (list_byte_of_string "legacy" ++ [x00]) size Hsize).
    + apply elem_of_app. right. apply elem_of_cons. by left.
    + simpl. lia.
Qed.

(** X12: a [size] that does not exceed the length of the text leaves the
    buffer without terminator: its first [size] bytes are the first
    [size] bytes of the text, none of them NUL, and the bytes behind them
    are as they were. *)
Theorem get_revision_cut_unterminated (ep : var_carrier_eeprom)
    (rev : list byte) (size : nat) :
  (size ≤ length rev)%nat →
  (is_valid ep = true →
   (size ≤ length (c_string (carrier_rev CARRIER_REV_LEN ep)))%nat →
   ∃ rev',
     get_revision ep rev size = Some rev'
     ∧ take size rev' = take size (carrier_rev CARRIER_REV_LEN ep)
     ∧ (x00 ∉ take size rev') ∧ drop size rev' = drop size rev)
  ∧ (is_valid ep = false → (size ≤ 6)%nat →
     ∃ rev',
       get_revision ep rev size = Some rev'
       ∧ take size rev' = take size (list_byte_of_string "legacy")
       ∧ (x00 ∉ take size rev') ∧ drop size rev' = drop size rev).
Proof.
  intros Hsize. unfold var_carrier_eeprom_get_revision. split.
  - intros -> Hlen. by apply strncpy_cut.
  - intros -> H6.
    destruct (strncpy_cut strncpy_pads rev
                (list_byte_of_string "legacy" ++ [x00]) size Hsize)
      as (w & -> & Htake & Hnul & Hdrop); [simpl; lia|].
    exists w. split; [done|]. split; [|done].
    rewrite Htake. by rewrite take_app_le by (simpl; lia).
Qed.

End CarrierMoreFacts.

(** ** The record readers *)

Section ReaderFacts.

Variable VAR_SOM_EEPROM_I2C_NAME : string.
Variable VAR_SOM_EEPROM_I2C_ADDR : Z.

Local Abbreviation read_header :=
  (var_eeprom_read_header VAR_SOM_EEPROM_I2C_NAME VAR_SOM_EEPROM_I2C_ADDR).

(** X13: [var_eeprom_read_header] returns 0 exactly when the bus lookup,
    the chip probe and the read all return 0, and otherwise the code of
    the first of them that failed; when the lookup or the probe fails the
    memory of the record is left as it was and no read is made. *)
Theorem read_header_outcome (dm : dm_i2c) (e : list byte) :
  let lookup := uclass_get_device_by_name dm VAR_SOM_EEPROM_I2C_NAME in
  let probe := dm_i2c_probe dm VAR_SOM_EEPROM_I2C_NAME VAR_SOM_EEPROM_I2C_ADDR in
  let transfer :=
    dm_i2c_read dm VAR_SOM_EEPROM_I2C_NAME VAR_SOM_EEPROM_I2C_ADDR 0
      (length e) e in
  let result := read_header dm e in
  (result.1.1 = 0 ↔ lookup = 0 ∧ probe = 0 ∧ transfer.1 = 0)
  ∧ (lookup ≠ 0 → result.1.1 = lookup)
  ∧ (lookup = 0 → probe ≠ 0 → result.1.1 = probe)
  ∧ (lookup = 0 → probe = 0 → result.1.1 = transfer.1 ∧ result.1.2 = transfer.2)
  ∧ (lookup ≠ 0 ∨ probe ≠ 0 →
     result.1.2 = e ∧ ∀ ev, ev ∈ result.2 → ¬ is_read ev).
Proof.
  intros lookup probe transfer result.
  unfold result, var_eeprom_read_header, var_eeprom_get_dev_ret.
  fold lookup probe. 
  destruct (Z.eqb_spec lookup 0) as [Hl|Hl]; cbn [negb].
  - destruct (Z.eqb_spec probe 0) as [Hp|Hp]; cbn [negb].
    + cbn [Z.eqb negb]. fold transfer.
      destruct transfer as [ret e'] eqn:Ht. 
      destruct (Z.eqb_spec ret 0) as [Hr|Hr]; cbn [negb fst snd];
        repeat split; try done; try tauto; try lia.
      all: intros [?|?]; done.
    + destruct (Z.eqb_spec probe 0) as [|_]; [done|]. cbn [negb fst snd].
      repeat split; try done; try tauto.
      intros ev Hev Hread.
      repeat (apply elem_of_cons in Hev as [->|Hev]; [done|]).
      by apply elem_of_nil in Hev.
  - destruct (Z.eqb_spec lookup 0) as [|_]; [done|]. cbn [negb fst snd].
    repeat split; try done; try tauto.
    intros ev Hev Hread.
    repeat (apply elem_of_cons in Hev as [->|Hev]; [done|]).
    by apply elem_of_nil in Hev.
Qed.

End ReaderFacts.

(** X14: [var_carrier_eeprom_read] returns 0 exactly when the bus lookup,
    the chip probe and the read all return 0, and otherwise the code of
    the first of them that failed; when the lookup or the probe fails the
    record is left as it was and no read is made. *)
Theorem carrier_read_outcome (dm : dm_i2c) (bus_name : string) (addr : Z)
    (ep : var_carrier_eeprom) :
  let lookup := uclass_get_device_by_name dm bus_name in
  let probe := dm_i2c_probe dm bus_name addr in
  let transfer := dm_i2c_read dm bus_name addr 0 (length ep) ep in
  let result := var_carrier_eeprom_read dm bus_name addr ep in
  (result.1.1 = 0 ↔ lookup = 0 ∧ probe = 0 ∧ transfer.1 = 0)
  ∧ (lookup ≠ 0 → result.1.1 = lookup)
  ∧ (lookup = 0 → probe ≠ 0 → result.1.1 = probe)
  ∧ (lookup = 0 → probe = 0 → result.1.1 = transfer.1 ∧ result.1.2 = transfer.2)
  ∧ (lookup ≠ 0 ∨ probe ≠ 0 →
     result.1.2 = ep ∧ ∀ ev, ev ∈ result.2 → ¬ is_read ev).
Proof.
  intros lookup probe transfer result.
  unfold result, var_carrier_eeprom_read. fold lookup probe.
  destruct (Z.eqb_spec lookup 0) as [Hl|Hl]; cbn [negb].
  - destruct (Z.eqb_spec probe 0) as [Hp|Hp]; cbn [negb].
    + fold transfer. destruct transfer as [ret ep'] eqn:Ht.
      destruct (Z.eqb_spec ret 0) as [Hr|Hr]; cbn [negb fst snd];
        repeat split; try done; try tauto; try lia.
      all: intros [?|?]; done.
    + cbn [fst snd]. repeat split; try done; try tauto.
      intros ev Hev Hread.
      repeat (apply elem_of_cons in Hev as [->|Hev]; [done|]).
      by apply elem_of_nil in Hev.
  - cbn [fst snd]. repeat split; try done; try tauto.
    intros ev Hev Hread.
    repeat (apply elem_of_cons in Hev as [->|Hev]; [done|]).
    by apply elem_of_nil in Hev.
Qed.

Section CarrierReaderFacts.

Variable crc32 : Z -> list byte -> Z.
Variable VAR_CARRIER_EEPROM_MAGIC : Z.
Variable CARRIER_REV_LEN : nat.
Variable strncpy_pads : bool.

Lemma le_load_zeros (n : nat) : le_load (replicate n x00) = 0.
Proof.
  induction n as [|n IH]; [done|].
  change (le_load (replicate (S n) x00))
    with (byte_val x00 + 256 * le_load (replicate n x00)).
  by rewrite IH.
Qed.

(** X15: an absent carrier EEPROM reads as a legacy board.  When the
    lookup or the probe fails on a zero-filled record and the magic
    constant is not zero, the read returns an error, and the revision of
    the record, written to a buffer of 7 bytes or more, is "legacy". *)
Theorem absent_carrier_reports_legacy (dm : dm_i2c) (bus_name : string)
    (addr : Z) (n : nat) (rev : list byte) (size : nat) :
  uclass_get_device_by_name dm bus_name ≠ 0
  ∨ dm_i2c_probe dm bus_name addr ≠ 0 →
  VAR_CARRIER_EEPROM_MAGIC ≠ 0 →
  (7 ≤ size)%nat → (size ≤ length rev)%nat →
  let result := var_carrier_eeprom_read dm bus_name addr (replicate n x00) in
  result.1.1 ≠ 0
  ∧ ∃ rev',
      var_carrier_eeprom_get_revision CARRIER_REV_LEN crc32
        VAR_CARRIER_EEPROM_MAGIC strncpy_pads result.1.2 rev size
      = Some rev'
      ∧ c_string rev' = list_byte_of_string "legacy".
Proof.
  intros Habsent Hmagic H7 Hsize result.
  assert (result.1.1 ≠ 0 ∧ result.1.2 = replicate n x00) as [Hret Hrec].
  { unfold result, var_carrier_eeprom_read.
    destruct (Z.eqb_spec (uclass_get_device_by_name dm bus_name) 0)
      as [Hl|Hl]; cbn [negb]; [|done].
    destruct (Z.eqb_spec (dm_i2c_probe dm bus_name addr) 0)
      as [Hp|Hp]; cbn [negb]; [|done].
    destruct Habsent; done. }
  split; [done|]. rewrite Hrec.
  unfold var_carrier_eeprom_get_revision, var_carrier_eeprom_is_valid, magic.
  rewrite take_replicate, le_load_zeros.
  change (htons 0) with 0.
  destruct (Z.eqb_spec 0 VAR_CARRIER_EEPROM_MAGIC) as [Heq|_]; [done|].
  cbn [negb].
  apply (strncpy_reads_back strncpy_pads rev
           (list_byte_of_string "legacy" ++ [x00]) size Hsize).
  - apply elem_of_app. right. apply elem_of_cons. by left.
  - simpl. lia.
Qed.

End CarrierReaderFacts.

(** ** Product information *)

Lemma c_string_app_zeros (l : list byte) (k : nat) :
  c_string (l ++ replicate k x00) = c_string l.
Proof.
  induction l as [|c l IH]; simpl.
  - by destruct k.
  - destruct (Byte.eqb c x00); [done | by rewrite IH].
Qed.

Section ProdInfoFacts.

Variable var_eeprom_is_valid : var_eeprom -> bool.

Lemma partnum_copy (p : list byte) :
  (length p ≤ 8)%nat →
  memcpy (replicate 8 x00) p (length p)
  = Some (p ++ replicate (8 - length p) x00).
Proof.
  intros Hp. rewrite memcpy_fits by (rewrite ?length_replicate; lia).
  by rewrite take_ge, drop_replicate.
Qed.

Lemma partnum2_copy (p p2 : list byte) :
  (length p + length p2 ≤ 8)%nat →
  memcpy_at (p ++ replicate (8 - length p) x00) (length p) p2 (length p2)
  = Some (p ++ p2 ++ replicate (8 - length p - length p2) x00).
Proof.
  intros Hp. unfold memcpy_at.
  rewrite decide_True by (rewrite length_app; lia).
  rewrite drop_app_length, take_app_length.
  rewrite memcpy_fits by (rewrite ?length_replicate; lia).
  simpl. by rewrite take_ge, drop_replicate.
Qed.

(** X16: for a trusted record whose two part number fragments fit the
    8-byte buffer, the part number line of an MX93 build shows the text
    of [partnum] followed by [partnum2] when the version is 3 or more and
    the text of [partnum] alone below; an untrusted record prints
    nothing. *)
Theorem prod_info_part_number (ep : var_eeprom_info) :
  (length (partnum ep) + length (partnum2 ep) ≤ 8)%nat →
  (var_eeprom_is_valid (info_ep ep) = false →
   ∀ mx93, var_eeprom_print_prod_info var_eeprom_is_valid mx93 ep = Some [])
  ∧ (var_eeprom_is_valid (info_ep ep) = true →
     ∃ lines,
       var_eeprom_print_prod_info var_eeprom_is_valid true ep
       = Some (([x0a] ++ list_byte_of_string "Part number: VSM-MX93-"
                ++ c_string (if 3 <=? version (info_ep ep)
                             then partnum ep ++ partnum2 ep
                             else partnum ep)
                ++ [x0a]) :: lines)
       ∧ var_eeprom_print_prod_info var_eeprom_is_valid false ep
         = Some lines).
Proof.
  intros Hfit. unfold var_eeprom_print_prod_info. split.
  - by intros ->.
  - intros ->. cbn [negb]. rewrite partnum_copy by lia. cbn [mbind option_bind].
    destruct (3 <=? version (info_ep ep)).
    + rewrite partnum2_copy by done. cbn [mbind option_bind].
      eexists. split; [|reflexivity]. cbn [app]. do 4 f_equal.
      unfold printf_s. rewrite take_ge by (rewrite !length_app, length_replicate; lia).
      by rewrite app_assoc, c_string_app_zeros.
    + cbn [mbind option_bind].
      eexists. split; [|reflexivity]. cbn [app]. do 4 f_equal.
      unfold printf_s. rewrite take_ge by (rewrite !length_app, length_replicate; lia).
      by rewrite c_string_app_zeros.
Qed.

(** X17: for a trusted record the two copies stay inside the 8-byte
    buffer exactly when [partnum] has at most 8 bytes and, from version 3
    on, [partnum] and [partnum2] together have at most 8. *)
Theorem prod_info_buffer_bound (mx93 : bool) (ep : var_eeprom_info) :
  var_eeprom_is_valid (info_ep ep) = true →
  is_Some (var_eeprom_print_prod_info var_eeprom_is_valid mx93 ep)
  ↔ (length (partnum ep) ≤ 8)%nat
    ∧ (3 <= version (info_ep ep) →
       (length (partnum ep) + length (partnum2 ep) ≤ 8)%nat).
Proof.
  intros Hvalid. unfold var_eeprom_print_prod_info. rewrite Hvalid. cbn [negb].
  destruct (decide (length (partnum ep) ≤ 8)%nat) as [Hp|Hp].
  - rewrite partnum_copy by done. cbn [mbind option_bind].
    destruct (Z.leb_spec 3 (version (info_ep ep))) as [Hv|Hv].
    + destruct (decide (length (partnum ep) + length (partnum2 ep) ≤ 8)%nat)
        as [Hp2|Hp2].
      * rewrite partnum2_copy by done. cbn [mbind option_bind].
        split; [done | by eexists].
      * unfold memcpy_at, memcpy.
        rewrite decide_True by (rewrite length_app; lia).
        rewrite decide_False.
        2: { rewrite drop_app_length, length_replicate. lia. }
        cbn [mbind option_bind]. split.
        -- by intros [? ?].
        -- intros [_ Hfit]. specialize (Hfit Hv). lia.
    + cbn [mbind option_bind]. split; [|by eexists].
      intros _. split; [done | lia].
  - unfold memcpy. rewrite decide_False by (rewrite length_replicate; lia).
    cbn [mbind option_bind]. split.
    + by intros [? ?].
    + intros [? _]. lia.
Qed.

End ProdInfoFacts.

(** ** Instances *)

Lemma adjust_dram_table_reads_witness :
  ∃ table',
    adjust_dram_table sample_env 248 2 sample_table 4 []
    = Some (table',
            reverse ((λ k : nat, EvRead ((248 + 8 * Z.of_nat k) mod 256) 8)
                       <$> seq 0 (Z.to_nat 2))
            ++ [EvGetDev]).
Proof.
  apply (adjust_dram_table_reads sample_env 248 2 sample_table 4 []).
  - reflexivity.
  - lia.
  - simpl. lia.
Defined.

Lemma ordered_rows_all_applied_witness :
  ∃ log',
    adjust_dram_table ordered_env 64 2 sample_table
      (u8 (table_num sample_table)) []
    = Some (override (fetched_rows ordered_env (Z.to_nat 2) 64 [EvGetDev])
            <$> sample_table, log').
Proof.
  apply (ordered_rows_all_applied ordered_env 64 2 sample_table []).
  - reflexivity.
  - simpl. lia.
  - apply (bool_decide_unpack _). vm_compute. exact I.
  - cbn.
    apply sublist_cons, sublist_skip, sublist_cons, sublist_skip, sublist_nil.
Defined.

Lemma row_behind_cursor_dropped_witness :
  ∃ log',
    adjust_rows sample_env 2 64 sample_table 4 3 []
    = Some (sample_table, 4%nat, log').
Proof.
  apply (row_behind_cursor_dropped sample_env 1 64 sample_table 4 3 [] 2
           {| reg := 0x108; val := 3 |}).
  - simpl. lia.
  - apply (bool_decide_unpack _). vm_compute. exact I.
  - lia.
  - reflexivity.
  - reflexivity.
Defined.

Lemma adjusted_values_come_from_rows_witness :
  ∃ table' log',
    adjust_dram_table sample_env 64 1 sample_table 4 [] = Some (table', log')
    ∧ length table' = length sample_table
    ∧ (get_dev_ok sample_env [] = false → table' = sample_table)
    ∧ ∀ k e e', sample_table !! k = Some e → table' !! k = Some e' →
        e' = e
        ∨ ∃ row,
            row ∈ fetched_rows sample_env (Z.to_nat 1) 64 [EvGetDev]
            ∧ reg row = reg e
            ∧ e' = {| reg := reg e; val := val row |}.
Proof.
  apply (adjusted_values_come_from_rows sample_env 64 1 sample_table 4 []).
  simpl. lia.
Defined.

Lemma engine_without_device_witness :
  var_eeprom_adjust_dram (fun _ => true) dead_env stale_stack sample_eeprom
    sample_timing []
  = Some (set_fsp_drate 3733 sample_timing, replicate 5 EvGetDev).
Proof.
  apply (engine_without_device (fun _ => true) dead_env stale_stack
           sample_eeprom sample_timing []).
  - reflexivity.
  - reflexivity.
  - simpl. lia.
Defined.

Lemma sizes_of_present_tables_witness :
  calc_sizes DRAM_TABLE_NUM 0 sample_eeprom stale_stack 1
  = (off_at sample_eeprom (1 + 1) - off_at sample_eeprom 1) / 8.
Proof.
  apply (sizes_of_present_tables sample_eeprom stale_stack 1).
  - unfold DRAM_TABLE_NUM. lia.
  - intros m Hm. destruct m as [|[|m]]; [| |lia]; vm_compute; discriminate.
  - vm_compute. split; discriminate.
  - reflexivity.
Defined.

Lemma sizes_of_descending_offsets_witness :
  calc_sizes DRAM_TABLE_NUM 0 descending_eeprom stale_stack 0
  = 65536 - (off_at descending_eeprom 0 - off_at descending_eeprom (0 + 1) + 7)
            / 8
  ∧ 0 < calc_sizes DRAM_TABLE_NUM 0 descending_eeprom stale_stack 0.
Proof.
  apply (sizes_of_descending_offsets descending_eeprom stale_stack 0).
  - unfold DRAM_TABLE_NUM. lia.
  - intros m Hm. destruct m as [|m]; [|lia]. vm_compute. discriminate.
  - vm_compute. split; [discriminate | reflexivity].
  - reflexivity.
Defined.

Lemma carrier_valid_iff_sealed_witness :
  var_carrier_eeprom_is_valid 16 crc32_zlib 0x5643 carrier_v2_host = true
  ↔ crc_bytes 16 carrier_v2_host
    = le_store 4 (crc32_zlib 0 (take (crc_offset 16) carrier_v2_host)).
Proof.
  apply (carrier_valid_iff_sealed crc32_zlib 0x5643 16 carrier_v2_host).
  - reflexivity.
  - reflexivity.
  - vm_compute. discriminate.
Defined.

Lemma sealed_record_validates_witness :
  var_carrier_eeprom_is_valid 16 crc32_zlib 0x5643
    (carrier_head x02 "2.0"
     ++ le_store 4 (crc32_zlib 0 (carrier_head x02 "2.0")) ++ [xff; xff])
  = true.
Proof.
  apply (sealed_record_validates crc32_zlib 0x5643 16
           (carrier_head x02 "2.0") [xff; xff]).
  - reflexivity.
  - reflexivity.
  - vm_compute. discriminate.
Defined.

Lemma get_revision_reads_back_witness :
  (∃ rev',
     var_carrier_eeprom_get_revision 16 crc32_zlib 0x5643 false carrier_v1
       (replicate 8 xff) 8 = Some rev'
     ∧ c_string rev' = c_string (carrier_rev 16 carrier_v1))
  ∧ (∃ rev',
       var_carrier_eeprom_get_revision 16 crc32_zlib 0x5643 false
         carrier_bad_magic (replicate 8 xff) 8 = Some rev'
       ∧ c_string rev' = list_byte_of_string "legacy").
Proof.
  split.
  - destruct (get_revision_reads_back crc32_zlib 0x5643 16 false carrier_v1
                (replicate 8 xff) 8) as (Hvalid & _).
    + simpl. lia.
    + apply Hvalid.
      * reflexivity.
      * apply (list_elem_of_lookup_2 _ 4). reflexivity.
      * vm_compute. lia.
  - destruct (get_revision_reads_back crc32_zlib 0x5643 16 false
                carrier_bad_magic (replicate 8 xff) 8) as (_ & Hinvalid).
    + simpl. lia.
    + apply Hinvalid.
      * reflexivity.
      * lia.
Defined.

Lemma get_revision_cut_unterminated_witness :
  (∃ rev',
     var_carrier_eeprom_get_revision 16 crc32_zlib 0x5643 false carrier_v1
       (replicate 8 xff) 3 = Some rev'
     ∧ take 3 rev' = take 3 (carrier_rev 16 carrier_v1)
     ∧ (x00 ∉ take 3 rev') ∧ drop 3 rev' = drop 3 (replicate 8 xff))
  ∧ (∃ rev',
       var_carrier_eeprom_get_revision 16 crc32_zlib 0x5643 false
         carrier_bad_magic (replicate 8 xff) 3 = Some rev'
       ∧ take 3 rev' = take 3 (list_byte_of_string "legacy")
       ∧ (x00 ∉ take 3 rev') ∧ drop 3 rev' = drop 3 (replicate 8 xff)).
Proof.
  split.
  - destruct (get_revision_cut_unterminated crc32_zlib 0x5643 16 false
                carrier_v1 (replicate 8 xff) 3) as (Hvalid & _).
    + simpl. lia.
    + apply Hvalid.
      * reflexivity.
      * vm_compute. lia.
  - destruct (get_revision_cut_unterminated crc32_zlib 0x5643 16 false
                carrier_bad_magic (replicate 8 xff) 3) as (_ & Hinvalid).
    + simpl. lia.
    + apply Hinvalid.
      * reflexivity.
      * lia.
Defined.

Lemma absent_carrier_reports_legacy_witness :
  (var_carrier_eeprom_read absent_dm "i2c@44350000" 0x54 (replicate 23 x00)).1.1
  ≠ 0
  ∧ ∃ rev',
      var_carrier_eeprom_get_revision 16 crc32_zlib 0x5643 false
        (var_carrier_eeprom_read absent_dm "i2c@44350000" 0x54
           (replicate 23 x00)).1.2
        (replicate 16 xff) 16
      = Some rev'
      ∧ c_string rev' = list_byte_of_string "legacy".
Proof.
  apply (absent_carrier_reports_legacy crc32_zlib 0x5643 16 false absent_dm
           "i2c@44350000" 0x54 23 (replicate 16 xff) 16).
  - right. simpl. lia.
  - lia.
  - lia.
  - simpl. lia.
Defined.

Lemma prod_info_part_number_witness :
  ∃ lines,
    var_eeprom_print_prod_info (fun _ => true) true sample_info
    = Some (([x0a] ++ list_byte_of_string "Part number: VSM-MX93-"
             ++ c_string (if 3 <=? version (info_ep sample_info)
                          then partnum sample_info ++ partnum2 sample_info
                          else partnum sample_info)
             ++ [x0a]) :: lines)
    ∧ var_eeprom_print_prod_info (fun _ => true) false sample_info
      = Some lines.
Proof.
  destruct (prod_info_part_number (fun _ => true) sample_info) as (_ & Hvalid).
  - simpl. lia.
  - apply Hvalid. reflexivity.
Defined.

Lemma prod_info_buffer_bound_witness :
  is_Some (var_eeprom_print_prod_info (fun _ => true) true sample_info)
  ↔ (length (partnum sample_info) ≤ 8)%nat
    ∧ (3 <= version (info_ep sample_info) →
       (length (partnum sample_info) + length (partnum2 sample_info) ≤ 8)%nat).
Proof.
  apply (prod_info_buffer_bound (fun _ => true) true sample_info).
  reflexivity.
Defined.

Lemma read_header_outcome_witness :
  (var_eeprom_read_header "i2c@44340000" 0x52 present_dm (replicate 23 x00)).1.1
  = 0
  ∧ (var_eeprom_read_header "i2c@44340000" 0x52 present_dm
       (replicate 23 x00)).1.2
    = carrier_v1.
Proof.
  destruct (read_header_outcome "i2c@44340000" 0x52 present_dm
              (replicate 23 x00)) as (_ & _ & _ & Hok & _).
  apply Hok; reflexivity.
Defined.

Lemma carrier_read_outcome_witness :
  (var_carrier_eeprom_read absent_dm "i2c@44350000" 0x54 (replicate 23 x00)).1.1
  = -121
  ∧ (var_carrier_eeprom_read absent_dm "i2c@44350000" 0x54
       (replicate 23 x00)).1.2
    = replicate 23 x00.
Proof.
  destruct (carrier_read_outcome absent_dm "i2c@44350000" 0x54
              (replicate 23 x00)) as (_ & _ & Hprobe & _ & Hkeep).
  split.
  - apply Hprobe; [reflexivity | simpl; lia].
  - apply Hkeep. right. simpl. lia.
Defined.
